(** * SunoApi: a shallow embedding of [src/lib/SunoApi.ts]

    The client is a sequential orchestrator of HTTP calls.  It is embedded
    as a state-and-exception monad over an explicit world: the two mutable
    fields of the client object, a millisecond clock, and the log of the
    requests issued so far together with the replies they received.  The
    remote service, the network latency and the random jitter of the
    pauses are an environment the theorems quantify over.

    Payloads are loosely typed in the source ([any]); they are embedded as
    a small universe of JavaScript values, with property access, optional
    chaining and truthiness written out. *)

From Stdlib Require Import ZArith NArith List String Ascii Bool Lia DecimalString.
Import ListNotations.
Local Open Scope string_scope.
Local Open Scope list_scope.
Local Open Scope Z_scope.
Set Warnings "-register-all".

(** ** JavaScript strings and values *)

(** A JavaScript string is a sequence of UTF-16 code units. *)
Definition jschar := N.
Definition jsstring := list jschar.

(** String literals of the source, as code units. *)
Definition lit (s : string) : jsstring :=
  List.map N_of_ascii (list_ascii_of_string s).

(** The line feed, ['\n']. *)
Definition LF : jschar := 10%N.

Fixpoint jsstring_eqb (a b : jsstring) : bool :=
  match a, b with
  | [], [] => true
  | x :: a', y :: b' => N.eqb x y && jsstring_eqb a' b'
  | _, _ => false
  end.

(** Values that appear in request and response bodies.  Object fields are
    kept in an association list; the first binding of a key wins.  Numbers
    are kept as integers: the client copies them and tests them for
    truthiness, nothing more. *)
Inductive value : Type :=
| VUndefined
| VNull
| VBool (b : bool)
| VNum (n : Z)
| VStr (s : jsstring)
| VArr (items : list value)
| VObj (fields : list (string * value)).

(** [ToBoolean]: what [if (v)] and [!v] test. *)
Definition truthy (v : value) : bool :=
  match v with
  | VUndefined | VNull => false
  | VBool b => b
  | VNum n => negb (n =? 0)
  | VStr s => match s with [] => false | _ :: _ => true end
  | VArr _ | VObj _ => true
  end.

Definition nullish (v : value) : bool :=
  match v with
  | VUndefined | VNull => true
  | _ => false
  end.

Fixpoint assoc (k : string) (fields : list (string * value)) : option value :=
  match fields with
  | [] => None
  | (k', v) :: rest => if String.eqb k k' then Some v else assoc k rest
  end.

(** Whether an object carries the field at all, whatever its value. *)
Definition has_field (v : value) (k : string) : bool :=
  match v with
  | VObj fields => match assoc k fields with Some _ => true | None => false end
  | _ => false
  end.

(** Exceptions the client can raise or let through. *)
Inductive exn : Type :=
| Error (msg : jsstring)        (* [throw new Error(msg)] *)
| TypeError                     (* property read on null/undefined, call of a non-function *)
| AxiosError (reason : jsstring) (* the transport rejected the request *).

(** How a piece of client code ends: it returns, it throws, or one of
    its loops is still running when the fuel is used up. *)
Inductive result (A : Type) : Type :=
| Ok (a : A)
| Throw (e : exn)
| OutOfFuel.
Arguments Ok {A} a.
Arguments Throw {A} e.
Arguments OutOfFuel {A}.

(** [v[k]] for the keys the client reads.  None of them is an own or
    inherited property of a primitive wrapper or of an array, so the read
    yields [undefined] on every non-object that is not nullish. *)
Definition prop (v : value) (k : string) : value :=
  match v with
  | VObj fields => match assoc k fields with Some x => x | None => VUndefined end
  | _ => VUndefined
  end.

(** [v.k]: throws on [null] and [undefined]. *)
Definition get_prop (v : value) (k : string) : result value :=
  if nullish v then Throw TypeError else Ok (prop v k).

(** [v?.k]: optional chaining. *)
Definition opt_prop (v : value) (k : string) : value :=
  if nullish v then VUndefined else prop v k.

(** [v === 'literal']. *)
Definition strict_eq_str (v : value) (s : jsstring) : bool :=
  match v with
  | VStr t => jsstring_eqb t s
  | _ => false
  end.

(** ** String built-ins used by [parseLyrics] *)

(** [WhiteSpace] and [LineTerminator] code units of ECMAScript, the ones
    [String.prototype.trim] strips. *)
Definition is_whitespace (c : jschar) : bool :=
  ((9 <=? c) && (c <=? 13) || (c =? 32) || (c =? 160) || (c =? 5760)
   || (8192 <=? c) && (c <=? 8202) || (c =? 8232) || (c =? 8233)
   || (c =? 8239) || (c =? 8287) || (c =? 12288) || (c =? 65279))%N.

Fixpoint trim_start (s : jsstring) : jsstring :=
  match s with
  | [] => []
  | c :: s' => if is_whitespace c then trim_start s' else s
  end.

Definition trim_end (s : jsstring) : jsstring :=
  rev (trim_start (rev s)).

(** [s.trim()] *)
Definition trim (s : jsstring) : jsstring := trim_end (trim_start s).

(** [s.split(sep)] for a one-unit separator: the pieces between
    successive separators, the empty string giving one empty piece. *)
Fixpoint split (sep : jschar) (s : jsstring) : list jsstring :=
  match s with
  | [] => [[]]
  | c :: s' =>
      if N.eqb c sep then [] :: split sep s'
      else match split sep s' with
           | [] => [[c]]
           | piece :: pieces => (c :: piece) :: pieces
           end
  end.

(** [pieces.join(sep)] *)
Fixpoint join (sep : jschar) (pieces : list jsstring) : jsstring :=
  match pieces with
  | [] => []
  | [p] => p
  | p :: rest => p ++ sep :: join sep rest
  end.

(** [parseLyrics]:
    [prompt.split('\n').filter(line => line.trim() !== '').join('\n')] *)
Definition parseLyrics (prompt : jsstring) : jsstring :=
  let lines := filter (fun line => negb (jsstring_eqb (trim line) [])) (split LF prompt) in
  join LF lines.

(** ** AudioInfo *)

(** The interface declares strings, but the fields are copied from the
    payload unchecked, so each holds whatever value the server sent. *)
Record AudioInfo : Type := {
  id : value;
  title : value;
  image_url : value;
  lyric : value;
  audio_url : value;
  video_url : value;
  created_at : value;
  model_name : value;
  status : value;
  gpt_description_prompt : value;
  prompt : value;
  type : value;
  tags : value;
  duration : value
}.

Definition bind_result {A B} (r : result A) (k : A -> result B) : result B :=
  match r with
  | Ok a => k a
  | Throw e => Throw e
  | OutOfFuel => OutOfFuel
  end.

(** A record with every field [undefined]. *)
Definition blank_record : AudioInfo :=
  {| id := VUndefined; title := VUndefined; image_url := VUndefined;
     lyric := VUndefined; audio_url := VUndefined; video_url := VUndefined;
     created_at := VUndefined; model_name := VUndefined; status := VUndefined;
     gpt_description_prompt := VUndefined; prompt := VUndefined;
     type := VUndefined; tags := VUndefined; duration := VUndefined |}.

(** The lyric of a record produced by [get]:
    [audio.metadata.prompt ? this.parseLyrics(audio.metadata.prompt) : ""].
    A truthy prompt that is not a string has no [split] method. *)
Definition lyric_of_prompt (p : value) : result value :=
  if truthy p then
    match p with
    | VStr s => Ok (VStr (parseLyrics s))
    | _ => Throw TypeError
    end
  else Ok (VStr []).

(** The object literal of [get] (lines 295-310), for one element of the
    feed.  Property reads are evaluated in source order. *)
Definition audio_of_feed (audio : value) : result AudioInfo :=
  bind_result (get_prop audio "id") (fun a_id =>
  bind_result (get_prop audio "metadata") (fun metadata =>
  bind_result (get_prop metadata "prompt") (fun m_prompt =>
  bind_result (lyric_of_prompt m_prompt) (fun a_lyric =>
  Ok {| id := a_id;
        title := prop audio "title";
        image_url := prop audio "image_url";
        lyric := a_lyric;
        audio_url := prop audio "audio_url";
        video_url := prop audio "video_url";
        created_at := prop audio "created_at";
        model_name := prop audio "model_name";
        status := prop audio "status";
        gpt_description_prompt := prop metadata "gpt_description_prompt";
        prompt := prop metadata "prompt";
        type := prop metadata "type";
        tags := prop metadata "tags";
        duration := prop metadata "duration_formatted" |})))).

(** The object literal of the immediate branch of [generateSongs]
    (lines 217-232), for one clip of the submission response. *)
Definition audio_of_clip (audio : value) : result AudioInfo :=
  bind_result (get_prop audio "id") (fun a_id =>
  bind_result (get_prop audio "metadata") (fun metadata =>
  bind_result (get_prop metadata "prompt") (fun m_prompt =>
  Ok {| id := a_id;
        title := prop audio "title";
        image_url := prop audio "image_url";
        lyric := m_prompt;
        audio_url := prop audio "audio_url";
        video_url := prop audio "video_url";
        created_at := prop audio "created_at";
        model_name := prop audio "model_name";
        status := prop audio "status";
        gpt_description_prompt := prop metadata "gpt_description_prompt";
        prompt := prop metadata "prompt";
        type := prop metadata "type";
        tags := prop metadata "tags";
        duration := prop metadata "duration_formatted" |}))).

(** [xs.map(f)] where [f] may throw: the first exception aborts the map. *)
Fixpoint map_result {A B} (f : A -> result B) (xs : list A) : result (list B) :=
  match xs with
  | [] => Ok []
  | x :: rest =>
      bind_result (f x) (fun y =>
      bind_result (map_result f rest) (fun ys => Ok (y :: ys)))
  end.

(** [v.map(f)]: only arrays have a [map] method. *)
Definition array_map {B} (f : value -> result B) (v : value) : result (list B) :=
  match v with
  | VArr items => map_result f items
  | _ => Throw TypeError
  end.

(** ** The world: client fields, clock, and the log of exchanges *)

(** The endpoints the client talks to.  The parts of a URL or body that
    the client computes are kept as arguments. *)
Inductive Endpoint : Type :=
| ClerkClient                        (* GET  clerk /v1/client *)
| ClerkRenew (session : value)       (* POST clerk /v1/client/sessions/${sid}/tokens/api *)
| GenerateV2 (payload : value)       (* POST /api/generate/v2/, 10 s timeout *)
| Feed (ids : option (list value))   (* GET  /api/feed/ or /api/feed/?ids=..., 3 s timeout *)
| LyricsSubmit (body : value)        (* POST /api/generate/lyrics/ *)
| LyricsStatus (job : value)         (* GET  /api/generate/lyrics/${id} *)
| BillingInfo.                       (* GET  /api/billing/info/ *)

(** An outbound request, after the interceptor of the constructor ran:
    [authorization = Some t] stands for the header [Bearer ${t}]. *)
Record Request : Type := {
  endpoint : Endpoint;
  authorization : option value
}.

Record Response : Type := {
  http_status : Z;
  statusText : jsstring;
  data : value
}.

(** How the promise of a request settles: it resolves with a response or
    it rejects. *)
Inductive Reply : Type :=
| Resolve (r : Response)
| Reject (reason : jsstring).

Record Event : Type := {
  request : Request;
  reply : Reply
}.

(** What the client does not control: how the service answers the n-th
    request, how long that exchange takes (ms), and the random draw of
    the n-th pause. *)
Record Env : Type := {
  server : nat -> Request -> Reply;
  latency : nat -> N;
  jitter : nat -> Z
}.

(** *** The transport *)

(** The client is made by [axios.create] (lines 39-46) without a
    [validateStatus] option, so the default of axios applies: the promise
    of a request resolves for a status from 200 to 299 and rejects for
    every other one. *)
Definition validateStatus (status : Z) : bool :=
  (200 <=? status) && (status <? 300).

(** A status as axios prints it in its messages. *)
Definition decimal (status : Z) : jsstring :=
  lit (NilZero.string_of_int (Z.to_int status)).

(** What axios makes of an answer that came over the wire: an answer
    with a status the default [validateStatus] refuses rejects the promise
    with "Request failed with status code N"; a request that got no
    answer rejects it as it is. *)
Definition settle (answer : Reply) : Reply :=
  match answer with
  | Resolve r =>
      if validateStatus (http_status r) then Resolve r
      else Reject (lit "Request failed with status code " ++ decimal (http_status r))
  | Reject reason => Reject reason
  end.

(** The environment the client lives in when [E] gives the answers on
    the wire. *)
Definition over_axios (E : Env) : Env :=
  {| server := fun n req => settle (server E n req);
     latency := latency E;
     jitter := jitter E |}.

Record World : Type := {
  sid : value;            (* [this.sid] *)
  currentToken : value;   (* [this.currentToken] *)
  now : Z;                (* [Date.now()] *)
  log : list Event;       (* exchanges so far, newest first *)
  pauses : nat            (* number of pauses taken so far *)
}.

(** The fields right after the constructor: both [undefined]. *)
Definition new_client (t0 : Z) : World :=
  {| sid := VUndefined; currentToken := VUndefined; now := t0; log := []; pauses := 0 |}.

(** ** The monad of client code *)

Definition M (A : Type) : Type := World -> result A * World.

Definition ret {A} (a : A) : M A := fun w => (Ok a, w).

Definition throw {A} (e : exn) : M A := fun w => (Throw e, w).

Definition out_of_fuel {A} : M A := fun w => (OutOfFuel, w).

Definition bind {A B} (m : M A) (k : A -> M B) : M B :=
  fun w =>
    match m w with
    | (Ok a, w') => k a w'
    | (Throw e, w') => (Throw e, w')
    | (OutOfFuel, w') => (OutOfFuel, w')
    end.

Definition lift {A} (r : result A) : M A := fun w => (r, w).

Declare Scope client_scope.
Delimit Scope client_scope with client.
Notation "x <- m ;; k" := (bind m (fun x => k))
  (at level 61, m at next level, right associativity) : client_scope.
Notation "m ;; k" := (bind m (fun _ => k))
  (at level 61, right associativity) : client_scope.
Local Open Scope client_scope.

(** The header the request interceptor attaches (lines 47-52):
    present exactly when the stored token is truthy. *)
Definition bearer (token : value) : option value :=
  if truthy token then Some token else None.

Definition clamp (lo hi x : Z) : Z := Z.max lo (Z.min hi x).

Section Client.

Variable E : Env.

Definition date_now : M Z := fun w => (Ok (now w), w).

Definition get_sid : M value := fun w => (Ok (sid w), w).

Definition set_sid (v : value) : M unit := fun w =>
  (Ok tt, {| sid := v; currentToken := currentToken w; now := now w;
             log := log w; pauses := pauses w |}).

Definition set_currentToken (v : value) : M unit := fun w =>
  (Ok tt, {| sid := sid w; currentToken := v; now := now w;
             log := log w; pauses := pauses w |}).

(** [await this.client.get(...)] / [await this.client.post(...)]: the
    interceptor stamps the request, the environment answers it, the
    exchange is logged and the clock moves by its latency. *)
Definition send (ep : Endpoint) : M Response := fun w =>
  let n := List.length (log w) in
  let req := {| endpoint := ep; authorization := bearer (currentToken w) |} in
  let rep := server E n req in
  let w' := {| sid := sid w; currentToken := currentToken w;
               now := now w + Z.of_N (latency E n);
               log := {| request := req; reply := rep |} :: log w;
               pauses := pauses w |} in
  match rep with
  | Resolve r => (Ok r, w')
  | Reject reason => (Throw (AxiosError reason), w')
  end.

(** The request a world would send to an endpoint, the reply it would
    get, and the world after the exchange. *)
Definition next_request (w : World) (ep : Endpoint) : Request :=
  {| endpoint := ep; authorization := bearer (currentToken w) |}.

Definition next_reply (w : World) (ep : Endpoint) : Reply :=
  server E (List.length (log w)) (next_request w ep).

Definition after_send (w : World) (ep : Endpoint) : World :=
  {| sid := sid w; currentToken := currentToken w;
     now := now w + Z.of_N (latency E (List.length (log w)));
     log := {| request := next_request w ep; reply := next_reply w ep |} :: log w;
     pauses := pauses w |}.

(** Modelled from the spec: [sleep] of [@/lib/utils] is not among the
    sources.  [sleep(x)] pauses for the fixed interval of [x] seconds;
    [sleep(x, y)] pauses for a randomized (jittered) interval between [x]
    and [y] seconds.  The draw is the environment's, clamped into range. *)
Definition sleep (x : Z) (y : option Z) : M unit := fun w =>
  let d := match y with
           | None => 1000 * x
           | Some y' => clamp (1000 * Z.min x y') (1000 * Z.max x y') (jitter E (pauses w))
           end in
  (Ok tt, {| sid := sid w; currentToken := currentToken w; now := now w + d;
             log := log w; pauses := S (pauses w) |}).

(** ** The methods of [SunoApi] *)

Definition AuthError : exn :=
  Error (lit "Failed to get session id, you may need to update the SUNO_COOKIE").

Definition StateError : exn :=
  Error (lit "Session ID is not set. Cannot renew token.").

Definition RequestError (status_text : jsstring) : exn :=
  Error (lit "Error response:" ++ status_text).

(** [sessionResponse?.data?.response?.['last_active_session_id']] *)
Definition session_id_of (sessionResponse : Response) : value :=
  opt_prop (opt_prop (data sessionResponse) "response") "last_active_session_id".

(** Lines 64-74. *)
Definition getAuthToken : M unit :=
  sessionResponse <- send ClerkClient ;;
  if negb (truthy (session_id_of sessionResponse)) then throw AuthError
  else
    response <- lift (get_prop (data sessionResponse) "response") ;;
    session <- lift (get_prop response "last_active_session_id") ;;
    set_sid session.

(** Lines 80-96.  An omitted [isWait] is [undefined], that is [false]. *)
Definition keepAlive (isWait : bool) : M unit :=
  session <- get_sid ;;
  if negb (truthy session) then throw StateError
  else
    renewResponse <- send (ClerkRenew session) ;;
    (if isWait then sleep 1 (Some 2) else ret tt) ;;
    newToken <- lift (get_prop (data renewResponse) "jwt") ;;
    set_currentToken newToken.

(** Lines 55-59. *)
Definition init : M unit :=
  getAuthToken ;;
  keepAlive false.

(** Lines 282-311. *)
Definition get (songIds : option (list value)) : M (list AudioInfo) :=
  keepAlive false ;;
  response <- send (Feed songIds) ;;
  lift (array_map audio_of_feed (data response)).

(** [audio.status === 'streaming' || audio.status === 'complete'] *)
Definition terminal (audio : AudioInfo) : bool :=
  strict_eq_str (status audio) (lit "streaming")
  || strict_eq_str (status audio) (lit "complete").

(** The [while] loop of lines 202-214; [fuel] bounds the number of times
    its body runs. *)
Fixpoint poll (fuel : nat) (startTime : Z) (songIds : list value)
    (lastResponse : list AudioInfo) : M (list AudioInfo) :=
  t <- date_now ;;
  if t - startTime <? 100000 then
    match fuel with
    | O => out_of_fuel
    | S fuel' =>
        response <- get (Some songIds) ;;
        if forallb terminal response then ret response
        else
          sleep 3 (Some 6) ;;
          keepAlive true ;;
          poll fuel' startTime songIds response
    end
  else ret lastResponse.

Definition opt_str (s : option jsstring) : value :=
  match s with
  | Some t => VStr t
  | None => VUndefined
  end.

(** The body posted to the generation endpoint (lines 164-175). *)
Definition generate_payload (prompt : jsstring) (isCustom : bool)
    (tags title : option jsstring) (make_instrumental : option bool) : value :=
  let instrumental :=
    VBool (match make_instrumental with Some true => true | _ => false end) in
  if isCustom then
    VObj [("make_instrumental", instrumental);
          ("mv", VStr (lit "chirp-v3-0"));
          ("prompt", VStr prompt);
          ("tags", opt_str tags);
          ("title", opt_str title)]
  else
    VObj [("make_instrumental", instrumental);
          ("mv", VStr (lit "chirp-v3-0"));
          ("prompt", VStr []);
          ("gpt_description_prompt", VStr prompt)].

(** The [if (wait_audio)] block of [generateSongs], lines 199-214. *)
Definition wait_for_audio (fuel : nat) (songIds : list value) : M (list AudioInfo) :=
  startTime <- date_now ;;
  sleep 5 (Some 5) ;;
  poll fuel startTime songIds [].

(** Lines 155-234. *)
Definition generateSongs (fuel : nat) (prompt : jsstring) (isCustom : bool)
    (tags title : option jsstring) (make_instrumental : option bool)
    (wait_audio : bool) : M (list AudioInfo) :=
  keepAlive false ;;
  response <- send (GenerateV2 (generate_payload prompt isCustom tags title make_instrumental)) ;;
  if negb (http_status response =? 200) then throw (RequestError (statusText response))
  else
    clips <- lift (get_prop (data response) "clips") ;;
    songIds <- lift (array_map (fun audio => get_prop audio "id") clips) ;;
    if wait_audio then wait_for_audio fuel songIds
    else
      keepAlive true ;;
      lift (array_map audio_of_clip clips).

(** Lines 105-117. *)
Definition generate (fuel : nat) (prompt : jsstring) (make_instrumental wait_audio : bool)
    : M (list AudioInfo) :=
  keepAlive false ;;
  generateSongs fuel prompt false None None (Some make_instrumental) wait_audio.

(** Lines 129-142. *)
Definition custom_generate (fuel : nat) (prompt tags title : jsstring)
    (make_instrumental wait_audio : bool) : M (list AudioInfo) :=
  generateSongs fuel prompt true (Some tags) (Some title) (Some make_instrumental) wait_audio.

(** [lyricsResponse?.data?.status !== 'complete'] *)
Definition lyrics_pending (lyricsResponse : Response) : bool :=
  negb (strict_eq_str (opt_prop (data lyricsResponse) "status") (lit "complete")).

(** The [while] loop of lines 249-252; [fuel] bounds the number of times
    its body runs. *)
Fixpoint lyrics_loop (fuel : nat) (generateId : value) (lyricsResponse : Response)
    : M value :=
  if lyrics_pending lyricsResponse then
    match fuel with
    | O => out_of_fuel
    | S fuel' =>
        sleep 2 None ;;
        next <- send (LyricsStatus generateId) ;;
        lyrics_loop fuel' generateId next
    end
  else ret (data lyricsResponse).

(** Lines 241-256. *)
Definition generateLyrics (fuel : nat) (prompt : jsstring) : M value :=
  keepAlive false ;;
  generateResponse <- send (LyricsSubmit (VObj [("prompt", VStr prompt)])) ;;
  generateId <- lift (get_prop (data generateResponse) "id") ;;
  lyricsResponse <- send (LyricsStatus generateId) ;;
  lyrics_loop fuel generateId lyricsResponse.

(** Lines 313-322. *)
Definition get_credits : M value :=
  keepAlive false ;;
  response <- send BillingInfo ;;
  credits_left <- lift (get_prop (data response) "total_credits_left") ;;
  period <- lift (get_prop (data response) "period") ;;
  monthly_limit <- lift (get_prop (data response) "monthly_limit") ;;
  monthly_usage <- lift (get_prop (data response) "monthly_usage") ;;
  ret (VObj [("credits_left", credits_left); ("period", period);
             ("monthly_limit", monthly_limit); ("monthly_usage", monthly_usage)]).

(** [newSunoApi]: construct, then [init]. *)
Definition newSunoApi (t0 : Z) : result unit * World := init (new_client t0).

(** The public methods a caller can invoke on the client it was given. *)
Inductive Call : Type :=
| CallInit
| CallKeepAlive (isWait : bool)
| CallGenerate (text : jsstring) (make_instrumental wait_audio : bool)
| CallCustomGenerate (text genre name : jsstring) (make_instrumental wait_audio : bool)
| CallGenerateLyrics (text : jsstring)
| CallGet (songIds : option (list value))
| CallGetCredits.

(** The world a call leaves behind, whether it returned or threw. *)
Definition perform (fuel : nat) (c : Call) (w : World) : World :=
  match c with
  | CallInit => snd (init w)
  | CallKeepAlive isWait => snd (keepAlive isWait w)
  | CallGenerate text mi wa => snd (generate fuel text mi wa w)
  | CallCustomGenerate text genre name mi wa =>
      snd (custom_generate fuel text genre name mi wa w)
  | CallGenerateLyrics text => snd (generateLyrics fuel text w)
  | CallGet songIds => snd (get songIds w)
  | CallGetCredits => snd (get_credits w)
  end.

(** A caller's whole use of the client: one call after the other. *)
Definition session (fuel : nat) (calls : list Call) (w : World) : World :=
  fold_left (fun w' c => perform fuel c w') calls w.

End Client.

(** ** Vocabulary of the properties *)

(** [parseLyrics] in the words of its comment: the lines of the prompt
    that are not white space only, in order. *)
Definition non_blank_lines (s : jsstring) : list jsstring :=
  filter (fun line => negb (forallb is_whitespace line)) (split LF s).

(** The record fields that both mappings copy from the payload: eight
    from the element itself and five from its [metadata]. *)
Definition copies_raw_fields (audio : value) (r : AudioInfo) : Prop :=
  let metadata := prop audio "metadata" in
  id r = prop audio "id" /\
  title r = prop audio "title" /\
  image_url r = prop audio "image_url" /\
  audio_url r = prop audio "audio_url" /\
  video_url r = prop audio "video_url" /\
  created_at r = prop audio "created_at" /\
  model_name r = prop audio "model_name" /\
  status r = prop audio "status" /\
  gpt_description_prompt r = prop metadata "gpt_description_prompt" /\
  prompt r = prop metadata "prompt" /\
  type r = prop metadata "type" /\
  tags r = prop metadata "tags" /\
  duration r = prop metadata "duration_formatted".

(** [metadata.prompt] of a raw element. *)
Definition raw_prompt (audio : value) : value :=
  prop (prop audio "metadata") "prompt".

(** A job payload: ["line1\nline2\n"] as prompt. *)
Definition two_lines : jsstring := lit "line1" ++ [LF] ++ lit "line2" ++ [LF].

Definition example_job : value :=
  VObj [("id", VStr (lit "job-1"));
        ("status", VStr (lit "complete"));
        ("title", VStr (lit "X"));
        ("metadata", VObj [("prompt", VStr two_lines)])].

(** A job payload whose prompt has an empty line in the middle:
    ["a\n\nb"]. *)
Definition blank_line_job : value :=
  VObj [("id", VStr (lit "job-2"));
        ("status", VStr (lit "queued"));
        ("metadata", VObj [("prompt", VStr (lit "a" ++ [LF; LF] ++ lit "b"))])].

(** A job payload without a prompt. *)
Definition promptless_job : value :=
  VObj [("id", VStr (lit "job-3"));
        ("status", VStr (lit "queued"));
        ("metadata", VObj [("tags", VStr (lit "pop"))])].

(** *** Reading the log *)

Definition is_renewal (e : Event) : bool :=
  match endpoint (request e) with
  | ClerkRenew _ => true
  | _ => false
  end.

Definition is_submission (e : Event) : bool :=
  match endpoint (request e) with
  | GenerateV2 _ => true
  | _ => false
  end.

(** The last snapshot observed in a run of events (newest first): the
    records of the newest status query that was answered, and no record
    when none was. *)
Fixpoint snapshot (events : list Event) : result (list AudioInfo) :=
  match events with
  | [] => Ok []
  | e :: older =>
      match endpoint (request e), reply e with
      | Feed _, Resolve r => array_map audio_of_feed (data r)
      | _, _ => snapshot older
      end
  end.

(** The token most recently obtained according to a log (newest first):
    the [jwt] of the newest renewal that was answered with a body. *)
Fixpoint obtained (events : list Event) : value :=
  match events with
  | [] => VUndefined
  | e :: older =>
      match endpoint (request e), reply e with
      | ClerkRenew _, Resolve r =>
          if nullish (data r) then obtained older else prop (data r) "jwt"
      | _, _ => obtained older
      end
  end.

(** Every request of the log went out with the token that was the most
    recently obtained one at that moment, and bare when there was none. *)
Fixpoint authenticated_log (events : list Event) : Prop :=
  match events with
  | [] => True
  | e :: older =>
      authorization (request e) = bearer (obtained older) /\ authenticated_log older
  end.

Definition is_lyrics_status (req : Request) : bool :=
  match endpoint req with
  | LyricsStatus _ => true
  | _ => false
  end.

(** The service never reports a lyrics job as complete. *)
Definition never_complete (E : Env) : Prop :=
  forall n req r,
    is_lyrics_status req = true -> server E n req = Resolve r ->
    lyrics_pending r = true.

(** The service answers every lyrics status query, never with
    "complete". *)
Definition always_running (E : Env) : Prop :=
  forall n req,
    is_lyrics_status req = true ->
    exists r, server E n req = Resolve r /\ lyrics_pending r = true.


(** The newest exchange of the world is a lyrics status query answered
    with [r]. *)
Definition last_poll (r : Response) (w : World) : Prop :=
  exists req older,
    log w = {| request := req; reply := Resolve r |} :: older /\
    is_lyrics_status req = true.

(** The stored token is the most recently obtained one, and every
    request so far went out with the token of its moment. *)
Definition token_invariant (w : World) : Prop :=
  currentToken w = obtained (log w) /\ authenticated_log (log w).

(** A piece of client code keeps a property of the world, however it
    ends. *)
Definition preserves {A} (I : World -> Prop) (m : M A) : Prop :=
  forall w, I w -> I (snd (m w)).

(** The caller runs the initialisation again. *)
Definition reinitialises (c : Call) : bool :=
  match c with
  | CallInit => true
  | _ => false
  end.

Definition renews (ep : Endpoint) : bool :=
  match ep with
  | ClerkRenew _ => true
  | _ => false
  end.

(** The service answers every renewal with a body and every status
    query with a feed the client can map, whatever the statuses in it. *)
Definition well_behaved (E : Env) : Prop :=
  (forall n req,
     renews (endpoint req) = true ->
     exists r, server E n req = Resolve r /\ nullish (data r) = false) /\
  (forall n req,
     (exists ids, endpoint req = Feed ids) ->
     exists r records,
       server E n req = Resolve r /\ array_map audio_of_feed (data r) = Ok records).

(** *** Which endpoints a piece of client code contacts *)

Definition is_identity (ep : Endpoint) : bool :=
  match ep with ClerkClient => true | _ => false end.

Definition is_generate (ep : Endpoint) : bool :=
  match ep with GenerateV2 _ => true | _ => false end.

Definition is_feed (ep : Endpoint) : bool :=
  match ep with Feed _ => true | _ => false end.

Definition is_lyrics (ep : Endpoint) : bool :=
  match ep with LyricsSubmit _ | LyricsStatus _ => true | _ => false end.

Definition is_billing (ep : Endpoint) : bool :=
  match ep with BillingInfo => true | _ => false end.

(** However the code ends, the log it leaves is the log it found with
    some exchanges put in front, all of them on allowed endpoints. *)
Definition talks_to {A} (allowed : Endpoint -> bool) (m : M A) : Prop :=
  forall w, exists sent,
    log (snd (m w)) = sent ++ log w /\
    forallb (fun e => allowed (endpoint (request e))) sent = true.

(** How many status queries a log shows. *)
Definition feed_queries (events : list Event) : nat :=
  List.length (filter (fun e => is_feed (endpoint (request e))) events).

(** The longest a turn of the polling loop can take when no request
    takes longer than [L] ms: the jittered pause of three to six seconds,
    the pause of one to two seconds of [keepAlive(true)], and the three
    requests of the turn (renewal and feed query of [get], renewal of
    [keepAlive]). *)
Definition polling_interval (L : Z) : Z := 6000 + 2000 + 3 * L.

(** How many generation jobs a log shows as submitted. *)
Definition submissions (events : list Event) : nat :=
  List.length (filter is_submission events).

(** However the code ends, it has added at most [n] submissions. *)
Definition submits_at_most {A} (n : nat) (m : M A) : Prop :=
  forall w, (submissions (log (snd (m w))) <= submissions (log w) + n)%nat.

(** Total latency of the requests number [from], ..., [from + count - 1]. *)
Fixpoint latency_sum (E : Env) (from count : nat) : Z :=
  match count with
  | O => 0
  | S count' => Z.of_N (latency E from) + latency_sum E (S from) count'
  end.

(** *** Sample services *)

Definition answer (d : value) : Reply :=
  Resolve {| http_status := 200; statusText := lit "OK"; data := d |}.

Definition identity_with (session : value) : value :=
  VObj [("response", VObj [("last_active_session_id", session)])].

Definition job_in_state (state : string) : value :=
  VObj [("id", VStr (lit "job-1"));
        ("status", VStr (lit state));
        ("title", VStr (lit "X"));
        ("metadata", VObj [("prompt", VStr two_lines)])].

(** A service that answers every request: the identity endpoint reports
    [session], the n-th request is answered with a token numbered [n],
    jobs and lyrics are reported complete from request number [done_at]
    on, and submissions are answered with [submit_status]. *)
Definition service (session : value) (done_at : nat) (submit_status : Z)
    (n : nat) (req : Request) : Reply :=
  match endpoint req with
  | ClerkClient => answer (identity_with session)
  | ClerkRenew _ => answer (VObj [("jwt", VStr (lit "jwt-" ++ [N.of_nat n]))])
  | GenerateV2 _ =>
      Resolve {| http_status := submit_status;
                 statusText := lit "Service Unavailable";
                 data := VObj [("clips", VArr [job_in_state "submitted"])] |}
  | Feed _ =>
      answer (VArr [job_in_state (if Nat.leb done_at n then "complete" else "queued")])
  | LyricsSubmit _ => answer (VObj [("id", VStr (lit "lyrics-1"))])
  | LyricsStatus _ =>
      answer (VObj [("status", VStr (lit (if Nat.leb done_at n then "complete" else "running")));
                    ("text", VStr two_lines)])
  | BillingInfo => answer (VObj [("total_credits_left", VNum 50)])
  end.

(** Requests take 100 ms and every jittered pause is drawn at 3.5 s. *)
Definition sample_env (session : value) (done_at : nat) (submit_status : Z) : Env :=
  {| server := service session done_at submit_status;
     latency := fun _ => 100%N;
     jitter := fun _ => 3500 |}.

(** A signed-in browser session, and a signed-out one: the identity
    endpoint then carries the field with the value [null]. *)
Definition signed_in : Env := sample_env (VStr (lit "sess_1")) 12 200.

(** A signed-in service whose jobs are complete at the first status
    query after initialisation, and one whose generation endpoint answers
    submissions with 503 on the wire. *)
Definition quick_service : Env := sample_env (VStr (lit "sess_1")) 3 200.
Definition overloaded_service : Env := sample_env (VStr (lit "sess_1")) 12 503.

(** A signed-in service whose generation endpoint answers submissions
    with 201 Created. *)
Definition created_service : Env :=
  {| server := fun n req =>
                 match endpoint req with
                 | GenerateV2 _ =>
                     Resolve {| http_status := 201; statusText := lit "Created";
                                data := VObj [("clips", VArr [])] |}
                 | _ => service (VStr (lit "sess_1")) 12 200 n req
                 end;
     latency := fun _ => 100%N;
     jitter := fun _ => 3500 |}.

(** A signed-in service whose feed is always empty. *)
Definition silent_feed : Env :=
  {| server := fun n req =>
                 match endpoint req with
                 | Feed _ => answer (VArr [])
                 | _ => service (VStr (lit "sess_1")) 12 200 n req
                 end;
     latency := fun _ => 100%N;
     jitter := fun _ => 3500 |}.

(** A signed-in service whose lyrics jobs stay "running" for ever. *)
Definition stuck_lyrics : Env :=
  {| server := fun n req =>
                 match endpoint req with
                 | LyricsStatus _ => answer (VObj [("status", VStr (lit "running"))])
                 | _ => service (VStr (lit "sess_1")) 12 200 n req
                 end;
     latency := fun _ => 100%N;
     jitter := fun _ => 3500 |}.

(** A signed-in service whose jobs stay "queued" well past the time
    limit of the polling loop. *)
Definition slow_service : Env := sample_env (VStr (lit "sess_1")) 1000 200.

(** The first exchange of a signed-in client: the identity request,
    sent bare. *)
Definition bare_identity_request : Event :=
  {| request := {| endpoint := ClerkClient; authorization := None |};
     reply := answer (identity_with (VStr (lit "sess_1"))) |}.

(** No network: every request is rejected. *)
Definition offline : Env :=
  {| server := fun _ _ => Reject (lit "Network Error");
     latency := fun _ => 100%N;
     jitter := fun _ => 3500 |}.


(** A job payload whose prompt is a number. *)
Definition numeric_prompt_job : value :=
  VObj [("id", VStr (lit "job-4"));
        ("status", VStr (lit "queued"));
        ("metadata", VObj [("prompt", VNum 5)])].

(** A job payload without [metadata]. *)
Definition bare_job : value :=
  VObj [("id", VStr (lit "job-5")); ("status", VStr (lit "queued"))].

(** The world [newSunoApi] leaves at time 0. *)
Definition initialised (E : Env) : World := snd (newSunoApi E 0).

(** * Properties *)

(** ** Strings *)

Lemma jsstring_eqb_eq (a b : jsstring) : jsstring_eqb a b = true <-> a = b.
Proof.
  revert b; induction a as [|x a IH]; intros [|y b]; simpl; split; intro H;
    try reflexivity; try discriminate.
  - apply andb_true_iff in H as [Hx Hab].
    apply N.eqb_eq in Hx. apply IH in Hab. now subst.
  - injection H as -> ->. apply andb_true_iff; split.
    + apply N.eqb_refl.
    + now apply IH.
Qed.

Lemma jsstring_eqb_nil (s : jsstring) : jsstring_eqb s [] = true <-> s = [].
Proof. apply jsstring_eqb_eq. Qed.

Lemma trim_start_nil (s : jsstring) :
  trim_start s = [] <-> forallb is_whitespace s = true.
Proof.
  induction s as [|c s IH]; simpl.
  - tauto.
  - destruct (is_whitespace c); simpl.
    + exact IH.
    + split; discriminate.
Qed.

Lemma forallb_trim_start (s : jsstring) :
  forallb is_whitespace (trim_start s) = forallb is_whitespace s.
Proof.
  induction s as [|c s IH]; simpl; [reflexivity|].
  destruct (is_whitespace c) eqn:Hc; simpl.
  - exact IH.
  - now rewrite Hc.
Qed.

Lemma forallb_rev {A} (f : A -> bool) (l : list A) :
  forallb f (rev l) = forallb f l.
Proof.
  induction l as [|x l IH]; simpl; [reflexivity|].
  rewrite forallb_app, IH. simpl. rewrite andb_true_r. apply andb_comm.
Qed.

(** A line trims to the empty string exactly when it is made of white
    space only. *)
Lemma trim_nil (s : jsstring) :
  trim s = [] <-> forallb is_whitespace s = true.
Proof.
  unfold trim, trim_end.
  rewrite <- forallb_trim_start, <- (forallb_rev _ (trim_start s)), <- trim_start_nil.
  split; intro H.
  - apply (f_equal (@rev jschar)) in H. now rewrite rev_involutive in H.
  - now rewrite H.
Qed.

Lemma blank_line_test (line : jsstring) :
  negb (jsstring_eqb (trim line) []) = negb (forallb is_whitespace line).
Proof.
  f_equal. apply eq_true_iff_eq. rewrite jsstring_eqb_nil. apply trim_nil.
Qed.

Lemma split_not_nil (sep : jschar) (s : jsstring) : split sep s <> [].
Proof.
  induction s as [|c s IH]; simpl; [discriminate|].
  destruct (N.eqb c sep); [discriminate|].
  destruct (split sep s); discriminate.
Qed.

(** Splitting loses nothing: joining the pieces gives the string back. *)
Lemma join_split (sep : jschar) (s : jsstring) : join sep (split sep s) = s.
Proof.
  induction s as [|c s IH]; simpl; [reflexivity|].
  destruct (N.eqb c sep) eqn:Hc.
  - apply N.eqb_eq in Hc; subst c.
    pose proof (split_not_nil sep s) as Hne.
    simpl. destruct (split sep s) as [|p ps]; [contradiction|].
    now rewrite <- IH.
  - pose proof (split_not_nil sep s) as Hne.
    destruct (split sep s) as [|p ps]; [contradiction|].
    rewrite <- IH. simpl. now destruct ps.
Qed.

(** No piece of a split contains the separator. *)
Lemma split_pieces (sep : jschar) (s : jsstring) :
  Forall (fun piece => ~ In sep piece) (split sep s).
Proof.
  induction s as [|c s IH]; simpl.
  - constructor; [intros []|constructor].
  - destruct (N.eqb c sep) eqn:Hc.
    + constructor; [intros []|exact IH].
    + apply N.eqb_neq in Hc.
      destruct (split sep s) as [|p ps].
      * constructor; [|constructor]. intros [H|[]]. now apply Hc.
      * inversion IH as [|? ? Hp Hps]; subst.
        constructor; [|exact Hps].
        intros [H|H]; [now apply Hc|now apply Hp].
Qed.

(** [parseLyrics] joins the lines that are not white space only. *)
Lemma parseLyrics_non_blank_lines (s : jsstring) :
  parseLyrics s = join LF (non_blank_lines s).
Proof.
  unfold parseLyrics, non_blank_lines. f_equal.
  apply filter_ext. intro line. apply blank_line_test.
Qed.

(** ** The two record mappings *)

Lemma bind_result_Ok {A B} (r : result A) (k : A -> result B) (b : B) :
  bind_result r k = Ok b -> exists a, r = Ok a /\ k a = Ok b.
Proof. destruct r; simpl; intro H; try discriminate. now exists a. Qed.

Lemma get_prop_Ok (v : value) (k : string) (x : value) :
  get_prop v k = Ok x -> nullish v = false /\ x = prop v k.
Proof.
  unfold get_prop. destruct (nullish v); intro H; [discriminate|].
  injection H as <-. now split.
Qed.

(** What [get] puts in a record, field by field. *)
Lemma audio_of_feed_fields (audio : value) (r : AudioInfo) :
  audio_of_feed audio = Ok r ->
  let metadata := prop audio "metadata" in
  lyric_of_prompt (prop metadata "prompt") = Ok (lyric r) /\
  id r = prop audio "id" /\
  title r = prop audio "title" /\
  image_url r = prop audio "image_url" /\
  audio_url r = prop audio "audio_url" /\
  video_url r = prop audio "video_url" /\
  created_at r = prop audio "created_at" /\
  model_name r = prop audio "model_name" /\
  status r = prop audio "status" /\
  gpt_description_prompt r = prop metadata "gpt_description_prompt" /\
  prompt r = prop metadata "prompt" /\
  type r = prop metadata "type" /\
  tags r = prop metadata "tags" /\
  duration r = prop metadata "duration_formatted".
Proof.
  unfold audio_of_feed. intro H.
  apply bind_result_Ok in H as (a_id & Hid & H). apply get_prop_Ok in Hid as [_ ->].
  apply bind_result_Ok in H as (md & Hmd & H). apply get_prop_Ok in Hmd as [_ ->].
  apply bind_result_Ok in H as (p & Hp & H). apply get_prop_Ok in Hp as [_ ->].
  apply bind_result_Ok in H as (l & Hl & H).
  injection H as <-. simpl. rewrite Hl. repeat split.
Qed.

(** What the immediate branch of [generateSongs] puts in a record. *)
Lemma audio_of_clip_fields (audio : value) (r : AudioInfo) :
  audio_of_clip audio = Ok r ->
  let metadata := prop audio "metadata" in
  lyric r = prop metadata "prompt" /\
  id r = prop audio "id" /\
  title r = prop audio "title" /\
  image_url r = prop audio "image_url" /\
  audio_url r = prop audio "audio_url" /\
  video_url r = prop audio "video_url" /\
  created_at r = prop audio "created_at" /\
  model_name r = prop audio "model_name" /\
  status r = prop audio "status" /\
  gpt_description_prompt r = prop metadata "gpt_description_prompt" /\
  prompt r = prop metadata "prompt" /\
  type r = prop metadata "type" /\
  tags r = prop metadata "tags" /\
  duration r = prop metadata "duration_formatted".
Proof.
  unfold audio_of_clip. intro H.
  apply bind_result_Ok in H as (a_id & Hid & H). apply get_prop_Ok in Hid as [_ ->].
  apply bind_result_Ok in H as (md & Hmd & H). apply get_prop_Ok in Hmd as [_ ->].
  apply bind_result_Ok in H as (p & Hp & H). apply get_prop_Ok in Hp as [_ ->].
  injection H as <-. simpl. repeat split.
Qed.

(** The mappings succeed exactly on elements that are not nullish and
    whose [metadata] is not nullish (and, for [get], whose prompt can be
    split). *)
Lemma audio_of_clip_defined (audio : value) :
  nullish audio = false -> nullish (prop audio "metadata") = false ->
  exists r, audio_of_clip audio = Ok r.
Proof.
  intros Ha Hm. unfold audio_of_clip, get_prop. rewrite Ha. simpl. rewrite Hm. simpl.
  eexists; reflexivity.
Qed.

Lemma audio_of_feed_defined (audio : value) (l : value) :
  nullish audio = false -> nullish (prop audio "metadata") = false ->
  lyric_of_prompt (prop (prop audio "metadata") "prompt") = Ok l ->
  exists r, audio_of_feed audio = Ok r.
Proof.
  intros Ha Hm Hl. unfold audio_of_feed, get_prop. rewrite Ha. simpl. rewrite Hm. simpl.
  rewrite Hl. simpl. eexists; reflexivity.
Qed.

Lemma lyric_of_prompt_Ok (p l : value) :
  lyric_of_prompt p = Ok l ->
  l = match p with
      | VStr (c :: s) => VStr (parseLyrics (c :: s))
      | _ => VStr []
      end.
Proof.
  unfold lyric_of_prompt.
  destruct p as [| |b|n|s|items|fields]; simpl;
    try (intro H; injection H as <-; reflexivity).
  - destruct b; intro H; [discriminate|now injection H as <-].
  - destruct (n =? 0); simpl; intro H; [now injection H as <-|discriminate].
  - destruct s; intro H; now injection H as <-.
  - discriminate.
  - discriminate.
Qed.

(** The lyric [get] derives from the raw prompt. *)
Lemma audio_of_feed_lyric (audio : value) (r : AudioInfo) :
  audio_of_feed audio = Ok r ->
  lyric r = match raw_prompt audio with
            | VStr (c :: s) => VStr (parseLyrics (c :: s))
            | _ => VStr []
            end.
Proof.
  intro H. apply audio_of_feed_fields in H. cbv zeta in H.
  destruct H as (Hl & _). now apply lyric_of_prompt_Ok.
Qed.

(** C7 (as amended): both mappings copy every field but [lyric] verbatim
    from the raw payload: [id], [title], [image_url], [audio_url],
    [video_url], [created_at], [model_name] and [status] from the element,
    [gpt_description_prompt], [prompt], [type] and [tags] from its
    [metadata], and [duration] from [metadata.duration_formatted]; a field
    absent from the payload is [undefined] in the record.  The [lyric]
    of the immediate branch is the raw [metadata.prompt]; the [lyric] of
    [get] is [parseLyrics] of a non-empty string prompt and the empty
    string otherwise. *)
Theorem audio_mappings_copy_raw_fields (audio : value) :
  (forall r, audio_of_feed audio = Ok r ->
     copies_raw_fields audio r /\
     lyric r = match raw_prompt audio with
               | VStr (c :: s) => VStr (parseLyrics (c :: s))
               | _ => VStr []
               end) /\
  (forall r, audio_of_clip audio = Ok r ->
     copies_raw_fields audio r /\ lyric r = raw_prompt audio).
Proof.
  split; intros r H.
  - split; [|now apply audio_of_feed_lyric].
    apply audio_of_feed_fields in H. cbv zeta in H. apply H.
  - apply audio_of_clip_fields in H. cbv zeta in H.
    destruct H as (Hl & H). split; [exact H|exact Hl].
Qed.

Lemma audio_mappings_copy_raw_fields_witness :
  (exists r, audio_of_feed blank_line_job = Ok r /\
             copies_raw_fields blank_line_job r /\
             lyric r = VStr (lit "a" ++ [LF] ++ lit "b")) /\
  (exists r, audio_of_clip blank_line_job = Ok r /\
             copies_raw_fields blank_line_job r /\
             lyric r = VStr (lit "a" ++ [LF; LF] ++ lit "b")).
Proof.
  split.
  - eexists. split; [reflexivity|].
    apply (proj1 (audio_mappings_copy_raw_fields blank_line_job)). reflexivity.
  - eexists. split; [reflexivity|].
    apply (proj2 (audio_mappings_copy_raw_fields blank_line_job)). reflexivity.
Defined.

(** C7 (as stated) fails on [get]: for a prompt with an empty line the
    record is produced, yet its [lyric] differs from the raw
    [metadata.prompt] it is derived from. *)
Lemma get_lyric_is_not_the_raw_prompt :
  exists r, audio_of_feed blank_line_job = Ok r /\
            raw_prompt blank_line_job = VStr (lit "a" ++ [LF; LF] ++ lit "b") /\
            lyric r = VStr (lit "a" ++ [LF] ++ lit "b") /\
            lyric r <> raw_prompt blank_line_job.
Proof.
  eexists. split; [reflexivity|]. split; [reflexivity|]. split; [reflexivity|].
  discriminate.
Qed.

(** C8: the [lyric] of a record produced by [get] is the raw
    [metadata.prompt] split on newlines, without the lines that are
    empty or white space only, joined by newlines again; a payload with
    status "complete", title "X" and prompt "line1\nline2\n" gives status
    "complete", title "X" and lyric "line1\nline2"; without a
    [metadata.prompt] the lyric is the empty string. *)
Theorem get_lyric_is_non_blank_lines :
  (forall audio r s,
     audio_of_feed audio = Ok r -> raw_prompt audio = VStr s ->
     lyric r = VStr (join LF (non_blank_lines s))) /\
  (forall audio r,
     audio_of_feed audio = Ok r ->
     has_field (prop audio "metadata") "prompt" = false ->
     lyric r = VStr []) /\
  (exists r, audio_of_feed example_job = Ok r /\
             raw_prompt example_job = VStr (lit "line1" ++ [LF] ++ lit "line2" ++ [LF]) /\
             status r = VStr (lit "complete") /\
             title r = VStr (lit "X") /\
             lyric r = VStr (lit "line1" ++ [LF] ++ lit "line2")).
Proof.
  split; [|split].
  - intros audio r s H Hs.
    apply audio_of_feed_lyric in H.
    rewrite H, Hs. destruct s as [|c s].
    + reflexivity.
    + now rewrite parseLyrics_non_blank_lines.
  - intros audio r H Hf.
    apply audio_of_feed_lyric in H.
    rewrite H. unfold raw_prompt.
    destruct (prop audio "metadata") as [| |b|n|s|items|fields]; try reflexivity.
    simpl in Hf |- *. destruct (assoc "prompt" fields); [discriminate|reflexivity].
  - eexists. repeat split.
Qed.

Lemma get_lyric_is_non_blank_lines_witness :
  (exists r, audio_of_feed blank_line_job = Ok r /\
             lyric r = VStr (join LF [lit "a"; lit "b"])) /\
  (exists r, audio_of_feed promptless_job = Ok r /\ lyric r = VStr []).
Proof.
  split.
  - eexists. split; [reflexivity|].
    apply (proj1 get_lyric_is_non_blank_lines blank_line_job _ (lit "a" ++ [LF; LF] ++ lit "b"));
      reflexivity.
  - eexists. split; [reflexivity|].
    apply (proj1 (proj2 get_lyric_is_non_blank_lines) promptless_job); reflexivity.
Defined.

(** ** Running client code *)

Arguments lit : simpl never.
Arguments clamp : simpl never.

Lemma bind_inv {A B} (m : M A) (k : A -> M B) (w w' : World) (res : result B) :
  bind m k w = (res, w') ->
  (exists a w1, m w = (Ok a, w1) /\ k a w1 = (res, w')) \/
  (exists e, m w = (Throw e, w') /\ res = Throw e) \/
  (m w = (OutOfFuel, w') /\ res = OutOfFuel).
Proof.
  unfold bind. destruct (m w) as [[a|e|] w1]; intro H.
  - left. now exists a, w1.
  - right; left. injection H as <- <-. now exists e.
  - right; right. now injection H as <- <-.
Qed.

Lemma bind_Ok {A B} (m : M A) (k : A -> M B) (w w1 : World) (a : A) :
  m w = (Ok a, w1) -> bind m k w = k a w1.
Proof. unfold bind. now intros ->. Qed.

Lemma bind_Throw {A B} (m : M A) (k : A -> M B) (w w1 : World) (e : exn) :
  m w = (Throw e, w1) -> bind m k w = (Throw e, w1).
Proof. unfold bind. now intros ->. Qed.

Lemma clamp_bounds (lo hi x : Z) : lo <= hi -> lo <= clamp lo hi x <= hi.
Proof. unfold clamp. lia. Qed.

Lemma truthy_not_nullish (v : value) : truthy v = true -> nullish v = false.
Proof. now destruct v. Qed.

(** A truthy optional chain went through objects all the way, so the
    plain reads of line 73 cannot throw. *)
Lemma session_id_reads (r : Response) :
  truthy (session_id_of r) = true ->
  get_prop (data r) "response" = Ok (prop (data r) "response") /\
  get_prop (prop (data r) "response") "last_active_session_id" = Ok (session_id_of r).
Proof.
  unfold session_id_of, opt_prop, get_prop.
  destruct (nullish (data r)); simpl; [discriminate|].
  destruct (nullish (prop (data r) "response")); [discriminate|].
  now split.
Qed.


Section Running.

Variable E : Env.

Lemma send_eq (ep : Endpoint) (w : World) :
  send E ep w =
  (match next_reply E w ep with
   | Resolve r => Ok r
   | Reject reason => Throw (AxiosError reason)
   end, after_send E w ep).
Proof.
  unfold send, after_send, next_reply, next_request. cbv zeta.
  destruct (server E _ _); reflexivity.
Qed.

Lemma send_Resolve (ep : Endpoint) (w : World) (r : Response) :
  next_reply E w ep = Resolve r -> send E ep w = (Ok r, after_send E w ep).
Proof. intro H. now rewrite send_eq, H. Qed.

Lemma send_Reject (ep : Endpoint) (w : World) (reason : jsstring) :
  next_reply E w ep = Reject reason ->
  send E ep w = (Throw (AxiosError reason), after_send E w ep).
Proof. intro H. now rewrite send_eq, H. Qed.

(** [keepAlive] without a session id: the guard of line 81. *)
Lemma keepAlive_no_session (isWait : bool) (w : World) :
  truthy (sid w) = false -> keepAlive E isWait w = (Throw StateError, w).
Proof.
  intro H. unfold keepAlive, bind, get_sid. now rewrite H.
Qed.

(** [keepAlive] never touches [sid]. *)
Lemma keepAlive_sid (isWait : bool) (w : World) :
  sid (snd (keepAlive E isWait w)) = sid w.
Proof.
  unfold keepAlive, bind, get_sid.
  destruct (truthy (sid w)); simpl; [|reflexivity].
  rewrite send_eq.
  destruct (next_reply E w (ClerkRenew (sid w))) as [r|reason]; [|reflexivity].
  destruct isWait; simpl; unfold lift; destruct (get_prop (data r) "jwt"); reflexivity.
Qed.

(** The exceptions [keepAlive] can end with. *)
Lemma keepAlive_Throw (isWait : bool) (w w' : World) (e : exn) :
  keepAlive E isWait w = (Throw e, w') ->
  (e = StateError /\ truthy (sid w) = false) \/
  e = TypeError \/ exists reason, e = AxiosError reason.
Proof.
  unfold keepAlive, bind, get_sid.
  destruct (truthy (sid w)) eqn:Hs; simpl.
  - rewrite send_eq.
    destruct (next_reply E w (ClerkRenew (sid w))) as [r|reason].
    + unfold get_prop.
      destruct isWait; simpl; unfold lift; destruct (nullish (data r));
        simpl; intro H; try discriminate; injection H as <- _; now (right; left).
    + intro H. injection H as <- _. right; right. now exists reason.
  - intro H. injection H as <- _. now left.
Qed.

(** [getAuthToken] when the identity request is answered. *)
Lemma getAuthToken_answered (w : World) (r : Response) :
  next_reply E w ClerkClient = Resolve r ->
  getAuthToken E w =
  if truthy (session_id_of r)
  then (Ok tt, {| sid := session_id_of r; currentToken := currentToken w;
                  now := now w + Z.of_N (latency E (List.length (log w)));
                  log := log (after_send E w ClerkClient); pauses := pauses w |})
  else (Throw AuthError, after_send E w ClerkClient).
Proof.
  intro H. unfold getAuthToken.
  rewrite (bind_Ok _ _ _ _ _ (send_Resolve _ _ _ H)).
  destruct (truthy (session_id_of r)) eqn:Ht; simpl; [|reflexivity].
  destruct (session_id_reads r Ht) as [H1 H2].
  unfold bind, lift. rewrite H1, H2. reflexivity.
Qed.

End Running.

(** ** Initialisation and token renewal *)

Lemma AuthError_not_StateError : AuthError <> StateError.
Proof. intro H. vm_compute in H. discriminate. Qed.

(** C4: [keepAlive] on a client whose session id is not set fails with
    [StateError]; the stored token is unchanged and no request is issued,
    the token renewal included: the world is left as it was. *)
Theorem keepAlive_without_session_fails (E : Env) (isWait : bool) (w : World) :
  truthy (sid w) = false ->
  fst (keepAlive E isWait w) = Throw StateError /\
  currentToken (snd (keepAlive E isWait w)) = currentToken w /\
  log (snd (keepAlive E isWait w)) = log w /\
  snd (keepAlive E isWait w) = w.
Proof.
  intro H. rewrite (keepAlive_no_session E isWait w H). simpl. repeat split.
Qed.

Lemma keepAlive_without_session_fails_witness :
  sid (new_client 0) = VUndefined /\
  fst (keepAlive signed_in true (new_client 0)) = Throw StateError /\
  currentToken (snd (keepAlive signed_in true (new_client 0))) = VUndefined /\
  log (snd (keepAlive signed_in true (new_client 0))) = [] /\
  snd (keepAlive signed_in true (new_client 0)) = new_client 0.
Proof.
  split; [reflexivity|].
  apply (keepAlive_without_session_fails signed_in true (new_client 0)).
  reflexivity.
Defined.





(** ** Generation *)

Section Generation.

Variable E : Env.

(** A renewal that went through: one request to the renewal endpoint,
    answered with a body whose [jwt] becomes the token; a pause of one to
    two seconds when asked to wait. *)
Lemma keepAlive_Ok (isWait : bool) (w w' : World) (u : unit) :
  keepAlive E isWait w = (Ok u, w') ->
  exists r,
    truthy (sid w) = true /\
    next_reply E w (ClerkRenew (sid w)) = Resolve r /\
    nullish (data r) = false /\
    sid w' = sid w /\
    currentToken w' = prop (data r) "jwt" /\
    log w' = log (after_send E w (ClerkRenew (sid w))) /\
    pauses w' = (if isWait then S (pauses w) else pauses w) /\
    now w' = now w + Z.of_N (latency E (List.length (log w)))
             + (if isWait then clamp 1000 2000 (jitter E (pauses w)) else 0).
Proof.
  unfold keepAlive, bind, get_sid.
  destruct (truthy (sid w)) eqn:Hs; simpl; [|discriminate].
  rewrite send_eq.
  destruct (next_reply E w (ClerkRenew (sid w))) as [r|reason] eqn:HR; [|discriminate].
  unfold get_prop, lift.
  destruct isWait; simpl; destruct (nullish (data r)) eqn:Hn; simpl;
    intro H; try discriminate; inversion H; subst w'; clear H; exists r; simpl;
    rewrite ?HR; repeat split; try assumption; lia.
Qed.

(** A status query that went through: a renewal, then the feed request,
    whose body maps to the records returned.  No pause is taken. *)
Lemma get_Ok (songIds : option (list value)) (w w' : World) (records : list AudioInfo) :
  get E songIds w = (Ok records, w') ->
  exists w1 r,
    keepAlive E false w = (Ok tt, w1) /\
    next_reply E w1 (Feed songIds) = Resolve r /\
    array_map audio_of_feed (data r) = Ok records /\
    w' = after_send E w1 (Feed songIds).
Proof.
  unfold get. intro H.
  apply bind_inv in H as [(u & w1 & HK & H)|[(e & _ & He)|[_ He]]]; try discriminate.
  destruct u. exists w1.
  apply bind_inv in H as [(r & w2 & HS & H)|[(e & _ & He)|[_ He]]]; try discriminate.
  rewrite send_eq in HS.
  destruct (next_reply E w1 (Feed songIds)) as [r'|reason] eqn:HR; [|discriminate].
  injection HS as -> <-. unfold lift in H. injection H as H <-.
  now exists r.
Qed.

(** C5: in the polling loop, on an iteration (the time limit not yet
    reached) whose status query reports every job as "complete" or
    "streaming", the loop returns the records of that very query, in the
    world the query left: no pause is taken, no further request is sent,
    and the clock has only moved by the latency of the query's two
    requests. *)
Theorem poll_returns_at_once (fuel : nat) (startTime : Z) (songIds : list value)
    (lastResponse records : list AudioInfo) (w w1 : World) :
  now w - startTime < 100000 ->
  get E (Some songIds) w = (Ok records, w1) ->
  forallb terminal records = true ->
  poll E (S fuel) startTime songIds lastResponse w = (Ok records, w1) /\
  pauses w1 = pauses w /\
  (exists feed renewal,
     log w1 = feed :: renewal :: log w /\
     endpoint (request feed) = Feed (Some songIds) /\
     is_renewal renewal = true) /\
  now w1 = now w + latency_sum E (List.length (log w)) 2.
Proof.
  intros Ht Hg Hall. split.
  - simpl. unfold bind at 1. unfold date_now at 1.
    apply Z.ltb_lt in Ht. rewrite Ht.
    rewrite (bind_Ok _ _ _ _ _ Hg). now rewrite Hall.
  - apply get_Ok in Hg as (w0 & r & HK & HR & _ & ->).
    apply keepAlive_Ok in HK as (r0 & _ & _ & _ & _ & _ & HL & HP & HN).
    simpl. rewrite HL, HP, HN. simpl. repeat split.
    + eexists _, _. repeat split.
    + lia.
Qed.

(** The guard of line 193: when the promise of the submission resolves
    with a status other than 200, [generateSongs] fails with the
    [RequestError] built from the status text of that response, and the
    submission just logged is the only one sent. *)
Lemma generateSongs_status_guard (fuel : nat) (text : jsstring)
    (isCustom : bool) (genre name : option jsstring) (make_instrumental : option bool)
    (wait_audio : bool) (w w1 : World) (r : Response) :
  let submission := GenerateV2 (generate_payload text isCustom genre name make_instrumental) in
  keepAlive E false w = (Ok tt, w1) ->
  next_reply E w1 submission = Resolve r ->
  http_status r <> 200 ->
  generateSongs E fuel text isCustom genre name make_instrumental wait_audio w
  = (Throw (RequestError (statusText r)), after_send E w1 submission) /\
  submissions (log (after_send E w1 submission)) = S (submissions (log w)).
Proof.
  intros submission HK HR Hs. split.
  - unfold generateSongs.
    rewrite (bind_Ok _ _ _ _ _ HK).
    rewrite (bind_Ok _ _ _ _ _ (send_Resolve E _ _ _ HR)).
    apply Z.eqb_neq in Hs. now rewrite Hs.
  - apply keepAlive_Ok in HK as (r0 & _ & _ & _ & _ & _ & HL & _).
    unfold submissions. simpl. now rewrite HL.
Qed.

End Generation.

Lemma poll_returns_at_once_witness :
  let w := initialised quick_service in
  let query := get quick_service (Some [VStr (lit "job-1")]) w in
  poll quick_service 1 200 [VStr (lit "job-1")] [] w = query /\
  option_map (List.map status) (match fst query with Ok l => Some l | _ => None end)
  = Some [VStr (lit "complete")] /\
  pauses (snd query) = pauses w /\
  now (snd query) = now w + 200.
Proof.
  intros w query.
  destruct (poll_returns_at_once quick_service 0 200 [VStr (lit "job-1")] []
              (match fst query with Ok l => l | _ => [] end) w (snd query))
    as (H1 & H2 & _ & H4).
  - vm_compute. reflexivity.
  - vm_compute. reflexivity.
  - vm_compute. reflexivity.
  - split; [|split; [|split]].
    + rewrite H1. vm_compute. reflexivity.
    + vm_compute. reflexivity.
    + exact H2.
    + rewrite H4. vm_compute. reflexivity.
Defined.

(** ** The submission, through axios *)

Section Transport.

(** The answers on the wire. *)
Variable E : Env.

Lemma next_reply_over_axios (w : World) (ep : Endpoint) :
  next_reply (over_axios E) w ep = settle (next_reply E w ep).
Proof. reflexivity. Qed.

(** With the default [validateStatus] the client only ever sees
    responses with a status from 200 to 299. *)
Lemma over_axios_resolves_2xx (w : World) (ep : Endpoint) (r : Response) :
  next_reply (over_axios E) w ep = Resolve r -> validateStatus (http_status r) = true.
Proof.
  rewrite next_reply_over_axios. unfold settle.
  destruct (next_reply E w ep) as [r'|reason]; [|discriminate].
  destruct (validateStatus (http_status r')) eqn:Hv; [|discriminate].
  intro H. now injection H as <-.
Qed.

(** C6 (what the code does): when the generation endpoint answers the
    submission with a status outside 200-299, the promise of line 185 is
    rejected by axios, so [generateSongs] fails with the [AxiosError]
    "Request failed with status code N" and never reaches the guard of
    line 193: the error is not the [RequestError] with the status text.
    That guard fires for the statuses from 201 to 299 only.  In both
    cases the submission just logged is the only one sent. *)
Theorem generateSongs_error_status_through_axios (fuel : nat) (text : jsstring)
    (isCustom : bool) (genre name : option jsstring) (make_instrumental : option bool)
    (wait_audio : bool) (w w1 : World) (r : Response) :
  let submission := GenerateV2 (generate_payload text isCustom genre name make_instrumental) in
  let run := generateSongs (over_axios E) fuel text isCustom genre name
               make_instrumental wait_audio w in
  keepAlive (over_axios E) false w = (Ok tt, w1) ->
  next_reply E w1 submission = Resolve r ->
  (validateStatus (http_status r) = false ->
   run = (Throw (AxiosError (lit "Request failed with status code "
                             ++ decimal (http_status r))),
          after_send (over_axios E) w1 submission) /\
   fst run <> Throw (RequestError (statusText r))) /\
  (validateStatus (http_status r) = true -> http_status r <> 200 ->
   run = (Throw (RequestError (statusText r)), after_send (over_axios E) w1 submission)) /\
  submissions (log (after_send (over_axios E) w1 submission)) = S (submissions (log w)).
Proof.
  intros submission run HK HR.
  assert (HS : next_reply (over_axios E) w1 submission = settle (Resolve r))
    by (now rewrite next_reply_over_axios, HR).
  split; [|split].
  - intro Hv. simpl in HS. rewrite Hv in HS.
    assert (Hrun : run = (Throw (AxiosError (lit "Request failed with status code "
                                             ++ decimal (http_status r))),
                          after_send (over_axios E) w1 submission)).
    { unfold run, generateSongs. rewrite (bind_Ok _ _ _ _ _ HK).
      now rewrite (bind_Throw _ _ _ _ _ (send_Reject (over_axios E) _ _ _ HS)). }
    split; [exact Hrun|]. rewrite Hrun. discriminate.
  - intros Hv Hs. simpl in HS. rewrite Hv in HS.
    apply (generateSongs_status_guard (over_axios E) fuel text isCustom genre name
             make_instrumental wait_audio w w1 r HK HS Hs).
  - apply keepAlive_Ok in HK as (r0 & _ & _ & _ & _ & _ & HL & _).
    unfold submissions. simpl. now rewrite HL.
Qed.

End Transport.

Lemma generateSongs_error_status_through_axios_witness :
  let client := over_axios overloaded_service in
  let run := generateSongs client 0 (lit "a song") false None None None true
               (initialised client) in
  let client' := over_axios created_service in
  (fst run = Throw (AxiosError (lit "Request failed with status code 503")) /\
   fst run <> Throw (Error (lit "Error response:Service Unavailable")) /\
   submissions (log (snd run)) = 1%nat) /\
  fst (generateSongs client' 0 (lit "a song") false None None None true
         (initialised client'))
  = Throw (Error (lit "Error response:Created")).
Proof.
  intros client run client'. split.
  - destruct (generateSongs_error_status_through_axios overloaded_service 0 (lit "a song")
                false None None None true (initialised client)
                (snd (keepAlive client false (initialised client)))
                {| http_status := 503; statusText := lit "Service Unavailable";
                   data := VObj [("clips", VArr [job_in_state "submitted"])] |})
      as (H503 & _ & Hone); [vm_compute; reflexivity|vm_compute; reflexivity|].
    destruct (H503 eq_refl) as [Hrun Hnot].
    fold client in Hrun, Hnot, Hone. fold run in Hrun, Hnot.
    split; [|split].
    + rewrite Hrun. vm_compute. reflexivity.
    + exact Hnot.
    + rewrite Hrun. exact Hone.
  - subst client'.
    destruct (generateSongs_error_status_through_axios created_service 0 (lit "a song")
                false None None None true (initialised (over_axios created_service))
                (snd (keepAlive (over_axios created_service) false
                        (initialised (over_axios created_service))))
                {| http_status := 201; statusText := lit "Created";
                   data := VObj [("clips", VArr [])] |})
      as (_ & H201 & _); [vm_compute; reflexivity|vm_compute; reflexivity|].
    rewrite H201; [vm_compute; reflexivity|reflexivity|discriminate].
Defined.

(** ** The immediate branch, and polling an empty feed *)

Lemma map_result_Forall2 {A B} (f : A -> result B) (xs : list A) (ys : list B) :
  map_result f xs = Ok ys -> Forall2 (fun x y => f x = Ok y) xs ys.
Proof.
  revert ys; induction xs as [|x xs IH]; simpl; intros ys H.
  - injection H as <-. constructor.
  - apply bind_result_Ok in H as (y & Hy & H).
    apply bind_result_Ok in H as (ys' & Hys & H).
    injection H as <-. constructor; [exact Hy|now apply IH].
Qed.

Lemma array_map_Ok {B} (f : value -> result B) (v : value) (ys : list B) :
  array_map f v = Ok ys ->
  exists items, v = VArr items /\ Forall2 (fun x y => f x = Ok y) items ys.
Proof.
  destruct v; simpl; try discriminate.
  intro H. exists items. split; [reflexivity|now apply map_result_Forall2].
Qed.

Section Immediate.

Variable E : Env.

(** What [generateSongs] returns without waiting: the clips of the
    submission response, each mapped by the object literal of lines
    217-232. *)
Lemma generateSongs_immediate_Ok (fuel : nat) (text : jsstring) (isCustom : bool)
    (genre name : option jsstring) (make_instrumental : option bool)
    (w w' : World) (records : list AudioInfo) :
  generateSongs E fuel text isCustom genre name make_instrumental false w
  = (Ok records, w') ->
  exists w1 r clips,
    keepAlive E false w = (Ok tt, w1) /\
    next_reply E w1 (GenerateV2 (generate_payload text isCustom genre name make_instrumental))
    = Resolve r /\
    prop (data r) "clips" = VArr clips /\
    Forall2 (fun audio record => audio_of_clip audio = Ok record) clips records.
Proof.
  unfold generateSongs. intro H.
  apply bind_inv in H as [(u & w1 & HK & H)|[(e & _ & He)|[_ He]]]; try discriminate.
  destruct u. exists w1.
  apply bind_inv in H as [(r & w2 & HS & H)|[(e & _ & He)|[_ He]]]; try discriminate.
  rewrite send_eq in HS.
  destruct (next_reply E w1 _) as [r'|reason] eqn:HR; [|discriminate].
  injection HS as -> <-. exists r.
  destruct (negb (http_status r =? 200)); [discriminate|].
  apply bind_inv in H as [(clips & w3 & HC & H)|[(e & _ & He)|[_ He]]]; try discriminate.
  unfold lift in HC. injection HC as HC <-. apply get_prop_Ok in HC as [_ ->].
  apply bind_inv in H as [(ids & w3 & HI & H)|[(e & _ & He)|[_ He]]]; try discriminate.
  unfold lift in HI. injection HI as HI <-.
  apply bind_inv in H as [(u & w3 & HK2 & H)|[(e & _ & He)|[_ He]]]; try discriminate.
  unfold lift in H. injection H as H _.
  apply array_map_Ok in H as (items & Hitems & HF).
  exists items. repeat split; assumption.
Qed.

(** A status query answered with an empty feed. *)
Lemma get_empty_feed (songIds : option (list value)) (w w1 : World) (r : Response) :
  keepAlive E false w = (Ok tt, w1) ->
  next_reply E w1 (Feed songIds) = Resolve r ->
  data r = VArr [] ->
  get E songIds w = (Ok [], after_send E w1 (Feed songIds)).
Proof.
  intros HK HR Hd. unfold get.
  rewrite (bind_Ok _ _ _ _ _ HK).
  rewrite (bind_Ok _ _ _ _ _ (send_Resolve E _ _ _ HR)).
  unfold lift. now rewrite Hd.
Qed.

(** C10: in the immediate branch of [generateSongs] the [lyric] and the
    [prompt] of every returned record are both the raw [metadata.prompt]
    of its clip, unprocessed, whereas the [lyric] of a record produced by
    [get] is the prompt passed through [parseLyrics] (the two differ on a
    prompt with an empty line); and since "every job terminal" holds of
    the empty list, a status query answered with an empty feed ends the
    polling in that iteration with the empty result. *)
Theorem immediate_lyric_is_raw_and_empty_feed_ends_polling :
  (forall fuel text isCustom genre name make_instrumental w w' records,
     generateSongs E fuel text isCustom genre name make_instrumental false w
     = (Ok records, w') ->
     exists w1 r clips,
       next_reply E w1 (GenerateV2 (generate_payload text isCustom genre name make_instrumental))
       = Resolve r /\
       prop (data r) "clips" = VArr clips /\
       Forall2 (fun audio record =>
                  lyric record = raw_prompt audio /\ prompt record = raw_prompt audio)
               clips records) /\
  (forall audio record,
     audio_of_feed audio = Ok record ->
     prompt record = raw_prompt audio /\
     lyric record = match raw_prompt audio with
                    | VStr (c :: s) => VStr (parseLyrics (c :: s))
                    | _ => VStr []
                    end) /\
  (exists from_get from_submission,
     audio_of_feed blank_line_job = Ok from_get /\
     audio_of_clip blank_line_job = Ok from_submission /\
     lyric from_submission = VStr (lit "a" ++ [LF; LF] ++ lit "b") /\
     lyric from_get = VStr (lit "a" ++ [LF] ++ lit "b")) /\
  forallb terminal [] = true /\
  (forall fuel startTime songIds lastResponse w w1 r,
     now w - startTime < 100000 ->
     keepAlive E false w = (Ok tt, w1) ->
     next_reply E w1 (Feed (Some songIds)) = Resolve r ->
     data r = VArr [] ->
     poll E (S fuel) startTime songIds lastResponse w
     = (Ok [], after_send E w1 (Feed (Some songIds)))).
Proof.
  split; [|split; [|split; [|split]]].
  - intros fuel text isCustom genre name mi w w' records H.
    apply generateSongs_immediate_Ok in H as (w1 & r & clips & _ & HR & HC & HF).
    exists w1, r, clips. repeat split; try assumption.
    clear HC HR. induction HF as [|audio record clips records Ha HF IH]; constructor.
    + apply audio_of_clip_fields in Ha. cbv zeta in Ha.
      destruct Ha as (Hl & _ & _ & _ & _ & _ & _ & _ & _ & _ & Hp & _).
      now split.
    + exact IH.
  - intros audio record H. split.
    + apply audio_of_feed_fields in H. cbv zeta in H.
      now destruct H as (_ & _ & _ & _ & _ & _ & _ & _ & _ & _ & Hp & _).
    + now apply audio_of_feed_lyric.
  - eexists _, _. repeat split.
  - reflexivity.
  - intros fuel startTime songIds lastResponse w w1 r Ht HK HR Hd.
    simpl. unfold bind at 1. unfold date_now at 1.
    apply Z.ltb_lt in Ht. rewrite Ht.
    now rewrite (bind_Ok _ _ _ _ _ (get_empty_feed _ _ _ _ HK HR Hd)).
Qed.

End Immediate.

Lemma immediate_lyric_is_raw_and_empty_feed_ends_polling_witness :
  let w := initialised signed_in in
  let run := generateSongs signed_in 0 (lit "a song") false None None None false w in
  let records := match fst run with Ok l => l | _ => [] end in
  let w0 := initialised silent_feed in
  let w1 := snd (keepAlive silent_feed false w0) in
  (List.map lyric records = [VStr two_lines] /\
   exists w2 r clips,
     next_reply signed_in w2
       (GenerateV2 (generate_payload (lit "a song") false None None None)) = Resolve r /\
     prop (data r) "clips" = VArr clips /\
     Forall2 (fun audio record =>
                lyric record = raw_prompt audio /\ prompt record = raw_prompt audio)
             clips records) /\
  (prompt (match audio_of_feed blank_line_job with Ok a => a | _ => blank_record end)
   = raw_prompt blank_line_job) /\
  poll silent_feed 1 200 [VStr (lit "job-1")] [] w0
  = (Ok [], after_send silent_feed w1 (Feed (Some [VStr (lit "job-1")]))).
Proof.
  intros w run records w0 w1. split; [split|split].
  - vm_compute. reflexivity.
  - apply (proj1 (immediate_lyric_is_raw_and_empty_feed_ends_polling signed_in)
             0%nat (lit "a song") false None None None w (snd run) records).
    vm_compute. reflexivity.
  - apply (proj1 (proj2 (immediate_lyric_is_raw_and_empty_feed_ends_polling signed_in))
             blank_line_job).
    vm_compute. reflexivity.
  - apply (proj2 (proj2 (proj2 (proj2
             (immediate_lyric_is_raw_and_empty_feed_ends_polling silent_feed))))
             0%nat 200 [VStr (lit "job-1")] [] w0 w1
             {| http_status := 200; statusText := lit "OK"; data := VArr [] |}).
    + vm_compute. reflexivity.
    + vm_compute. reflexivity.
    + vm_compute. reflexivity.
    + reflexivity.
Defined.

(** ** Lyrics *)

Section Lyrics.

Variable E : Env.

Lemma sleep_eq (x : Z) (w : World) :
  sleep E x None w =
  (Ok tt, {| sid := sid w; currentToken := currentToken w; now := now w + 1000 * x;
             log := log w; pauses := S (pauses w) |}).
Proof. reflexivity. Qed.

(** One turn of the lyrics loop: a pause of exactly two seconds, then
    one status query. *)
Lemma lyrics_loop_step (fuel : nat) (generateId : value) (r0 : Response) (w : World) :
  lyrics_pending r0 = true ->
  let paused := {| sid := sid w; currentToken := currentToken w; now := now w + 2000;
                   log := log w; pauses := S (pauses w) |} in
  lyrics_loop E (S fuel) generateId r0 w =
  match next_reply E paused (LyricsStatus generateId) with
  | Resolve r =>
      lyrics_loop E fuel generateId r (after_send E paused (LyricsStatus generateId))
  | Reject reason =>
      (Throw (AxiosError reason), after_send E paused (LyricsStatus generateId))
  end.
Proof.
  intros Hp paused. simpl. rewrite Hp.
  unfold bind at 1. rewrite sleep_eq. simpl.
  unfold bind at 1. rewrite send_eq. fold paused.
  now destruct (next_reply E paused (LyricsStatus generateId)).
Qed.

Lemma lyrics_loop_done (fuel : nat) (generateId : value) (r0 : Response) (w : World) :
  lyrics_pending r0 = false ->
  lyrics_loop E fuel generateId r0 w = (Ok (data r0), w).
Proof. intro Hp. destruct fuel; simpl; now rewrite Hp. Qed.

Lemma last_poll_after_send (w : World) (generateId : value) (r : Response) :
  next_reply E w (LyricsStatus generateId) = Resolve r ->
  last_poll r (after_send E w (LyricsStatus generateId)).
Proof.
  intro H. eexists _, _. simpl. rewrite H. split; reflexivity.
Qed.

(** The loop only returns the body of a status query that said
    "complete". *)
Lemma lyrics_loop_Ok (fuel : nat) (generateId : value) (r0 : Response)
    (w w' : World) (v : value) :
  last_poll r0 w ->
  lyrics_loop E fuel generateId r0 w = (Ok v, w') ->
  exists r, last_poll r w' /\ lyrics_pending r = false /\ v = data r.
Proof.
  revert r0 w. induction fuel as [|fuel IH]; intros r0 w HL H;
    destruct (lyrics_pending r0) eqn:Hp.
  - simpl in H. rewrite Hp in H. discriminate.
  - rewrite (lyrics_loop_done _ _ _ _ Hp) in H. injection H as <- <-. now exists r0.
  - rewrite (lyrics_loop_step _ _ _ _ Hp) in H. cbv zeta in H.
    match type of H with context [next_reply E ?p ?ep] =>
      destruct (next_reply E p ep) as [r|reason] eqn:HR; [|discriminate];
      apply (IH r _ (last_poll_after_send p _ r HR) H) end.
  - rewrite (lyrics_loop_done _ _ _ _ Hp) in H. injection H as <- <-. now exists r0.
Qed.

(** The pace of the loop: [k] turns make [k] queries and [k] pauses of
    two seconds each. *)
Lemma lyrics_loop_pace (fuel : nat) (generateId : value) (r0 : Response) (w : World) :
  let w' := snd (lyrics_loop E fuel generateId r0 w) in
  exists k : nat,
    (k <= fuel)%nat /\
    List.length (log w') = (List.length (log w) + k)%nat /\
    pauses w' = (pauses w + k)%nat /\
    now w' = now w + 2000 * Z.of_nat k + latency_sum E (List.length (log w)) k.
Proof.
  revert r0 w. induction fuel as [|fuel IH]; intros r0 w;
    destruct (lyrics_pending r0) eqn:Hp; cbv zeta.
  - exists 0%nat. simpl. rewrite Hp. simpl. repeat split; lia.
  - rewrite (lyrics_loop_done _ _ _ _ Hp). exists 0%nat. simpl. repeat split; lia.
  - rewrite (lyrics_loop_step _ _ _ _ Hp). cbv zeta.
    match goal with |- context [next_reply E ?p ?ep] =>
      destruct (next_reply E p ep) as [r|reason] eqn:HR;
      [destruct (IH r (after_send E p ep)) as (k & Hk & HL & HP & HN)|] end.
    + exists (S k). rewrite HL, HP, HN. simpl log. simpl pauses. simpl now.
      cbn [List.length latency_sum]. repeat split; lia.
    + exists 1%nat. simpl. repeat split; lia.
  - rewrite (lyrics_loop_done _ _ _ _ Hp). exists 0%nat. simpl. repeat split; lia.
Qed.

(** Against a service that never says "complete" the loop does not
    return. *)
Lemma lyrics_loop_never_Ok (fuel : nat) (generateId : value) (r0 : Response) (w : World) :
  never_complete E -> lyrics_pending r0 = true ->
  forall v, fst (lyrics_loop E fuel generateId r0 w) <> Ok v.
Proof.
  intros HE. revert r0 w. induction fuel as [|fuel IH]; intros r0 w Hp v.
  - simpl. rewrite Hp. discriminate.
  - rewrite (lyrics_loop_step _ _ _ _ Hp). cbv zeta.
    match goal with |- context [next_reply E ?p ?ep] =>
      destruct (next_reply E p ep) as [r|reason] eqn:HR end.
    + apply IH. eapply HE; [|exact HR]. reflexivity.
    + discriminate.
Qed.

(** Against a service that always answers "running", every turn the
    fuel allows is taken. *)
Lemma lyrics_loop_runs_out (fuel : nat) (generateId : value) (r0 : Response) (w : World) :
  always_running E -> lyrics_pending r0 = true ->
  fst (lyrics_loop E fuel generateId r0 w) = OutOfFuel /\
  List.length (log (snd (lyrics_loop E fuel generateId r0 w)))
  = (List.length (log w) + fuel)%nat.
Proof.
  intros HE. revert r0 w. induction fuel as [|fuel IH]; intros r0 w Hp.
  - simpl. rewrite Hp. simpl. split; [reflexivity|lia].
  - rewrite (lyrics_loop_step _ _ _ _ Hp). cbv zeta.
    match goal with |- context [next_reply E ?p ?ep] =>
      destruct (HE (List.length (log p)) (next_request p ep) eq_refl) as (r & HR & Hr);
      fold (next_reply E p ep) in HR; rewrite HR;
      destruct (IH r (after_send E p ep) Hr) as [H1 H2] end.
    rewrite H1, H2. simpl. split; [reflexivity|lia].
Qed.

(** [generateLyrics] up to its loop. *)
Lemma generateLyrics_inv (fuel : nat) (text : jsstring) (w w' : World) (res : result value) :
  generateLyrics E fuel text w = (res, w') ->
  (exists generateId r0 w0,
     last_poll r0 w0 /\
     server E (Nat.pred (List.length (log w0)))
       (next_request w0 (LyricsStatus generateId)) = Resolve r0 /\
     lyrics_loop E fuel generateId r0 w0 = (res, w')) \/
  (exists e, res = Throw e).
Proof.
  unfold generateLyrics. intro H.
  apply bind_inv in H as [(u & w1 & HK & H)|[(e & _ & He)|[HK _]]].
  - apply bind_inv in H as [(r & w2 & HS & H)|[(e & _ & He)|[HS _]]].
    + apply bind_inv in H as [(generateId & w3 & HI & H)|[(e & _ & He)|[HI _]]].
      * apply bind_inv in H as [(r0 & w4 & HS2 & H)|[(e & _ & He)|[HS2 _]]].
        -- left. exists generateId, r0, w4. rewrite send_eq in HS2.
           destruct (next_reply E w3 (LyricsStatus generateId)) as [r'|reason] eqn:HR;
             [|discriminate].
           injection HS2 as -> <-. split; [|split].
           ++ now apply last_poll_after_send.
           ++ exact HR.
           ++ exact H.
        -- right. now exists e.
        -- rewrite send_eq in HS2. destruct (next_reply E w3 _); discriminate.
      * right. now exists e.
      * unfold lift, get_prop in HI. destruct (nullish (data r)); discriminate.
    + right. now exists e.
    + rewrite send_eq in HS. destruct (next_reply E w1 _); discriminate.
  - right. now exists e.
  - exfalso. unfold keepAlive, bind, get_sid in HK.
    destruct (truthy (sid w)); simpl in HK; [|discriminate].
    rewrite send_eq in HK. destruct (next_reply E w _) as [r|reason]; [|discriminate].
    simpl in HK. unfold lift, get_prop in HK.
    destruct (nullish (data r)); discriminate.
Qed.

(** C2: [generateLyrics] returns only the body of a status query that
    reported "complete"; each turn of its loop pauses for exactly two
    seconds before the next query; the loop has no time limit and no
    bound on its turns, so against a service that never reports
    "complete" it never returns, and against one that keeps answering
    "running" it takes every turn it is given. *)
Theorem generateLyrics_returns_only_on_complete :
  (forall fuel text w w' v,
     generateLyrics E fuel text w = (Ok v, w') ->
     exists r,
       last_poll r w' /\
       strict_eq_str (opt_prop (data r) "status") (lit "complete") = true /\
       v = data r) /\
  (forall fuel generateId r0 w,
     let w' := snd (lyrics_loop E fuel generateId r0 w) in
     exists turns : nat,
       (turns <= fuel)%nat /\
       List.length (log w') = (List.length (log w) + turns)%nat /\
       pauses w' = (pauses w + turns)%nat /\
       now w' = now w + 2000 * Z.of_nat turns
                + latency_sum E (List.length (log w)) turns) /\
  (never_complete E ->
   forall fuel text w v, fst (generateLyrics E fuel text w) <> Ok v) /\
  (always_running E ->
   forall fuel generateId r0 w,
     lyrics_pending r0 = true ->
     fst (lyrics_loop E fuel generateId r0 w) = OutOfFuel /\
     List.length (log (snd (lyrics_loop E fuel generateId r0 w)))
     = (List.length (log w) + fuel)%nat).
Proof.
  split; [|split; [|split]].
  - intros fuel text w w' v H.
    apply generateLyrics_inv in H as [(generateId & r0 & w0 & HL & _ & H)|[e He]];
      [|discriminate].
    apply (lyrics_loop_Ok _ _ _ _ _ _ HL) in H as (r & Hr & Hp & ->).
    exists r. repeat split; [exact Hr|].
    unfold lyrics_pending in Hp. now apply negb_false_iff in Hp.
  - intros. apply lyrics_loop_pace.
  - intros HE fuel text w v Hv.
    destruct (generateLyrics E fuel text w) as [res w'] eqn:H. simpl in Hv. subst res.
    apply generateLyrics_inv in H as [(generateId & r0 & w0 & HL & HS & H)|[e He]];
      [|discriminate].
    apply (lyrics_loop_never_Ok fuel generateId r0 w0 HE) with (v := v).
    + eapply HE; [|exact HS]. reflexivity.
    + now rewrite H.
  - intros HE fuel generateId r0 w Hp. now apply lyrics_loop_runs_out.
Qed.

End Lyrics.

Lemma stuck_lyrics_always_running : always_running stuck_lyrics.
Proof.
  intros n req Hq. unfold is_lyrics_status in Hq. simpl.
  destruct (endpoint req); try discriminate.
  eexists. split; reflexivity.
Qed.

Lemma stuck_lyrics_never_complete : never_complete stuck_lyrics.
Proof.
  intros n req r Hq Hr.
  destruct (stuck_lyrics_always_running n req Hq) as (r' & Hr' & Hp). congruence.
Qed.

Lemma generateLyrics_returns_only_on_complete_witness :
  let run := generateLyrics signed_in 10 (lit "a song") (initialised signed_in) in
  let v := match fst run with Ok x => x | _ => VUndefined end in
  let running := {| http_status := 200; statusText := lit "OK";
                    data := VObj [("status", VStr (lit "running"))] |} in
  (prop v "status" = VStr (lit "complete") /\
   exists r, last_poll r (snd run) /\
             strict_eq_str (opt_prop (data r) "status") (lit "complete") = true /\
             v = data r) /\
  fst (generateLyrics stuck_lyrics 50 (lit "a song") (initialised stuck_lyrics)) <> Ok v /\
  fst (lyrics_loop stuck_lyrics 50 (VStr (lit "lyrics-1")) running (initialised stuck_lyrics))
  = OutOfFuel /\
  List.length (log (snd (lyrics_loop stuck_lyrics 50 (VStr (lit "lyrics-1")) running
                           (initialised stuck_lyrics)))) = 52%nat.
Proof.
  intros run v running. split; [split|split].
  - vm_compute. reflexivity.
  - apply (proj1 (generateLyrics_returns_only_on_complete signed_in)
             10%nat (lit "a song") (initialised signed_in) (snd run) v).
    vm_compute. reflexivity.
  - apply (proj1 (proj2 (proj2 (generateLyrics_returns_only_on_complete stuck_lyrics)))
             stuck_lyrics_never_complete).
  - apply (proj2 (proj2 (proj2 (generateLyrics_returns_only_on_complete stuck_lyrics)))
             stuck_lyrics_always_running 50%nat (VStr (lit "lyrics-1")) running
             (initialised stuck_lyrics)).
    reflexivity.
Defined.

(** ** Waiting for the audio *)

(** Reading and mapping payloads takes no fuel. *)
Lemma bind_result_total {A B} (r : result A) (k : A -> result B) :
  r <> OutOfFuel -> (forall a, k a <> OutOfFuel) -> bind_result r k <> OutOfFuel.
Proof. destruct r; simpl; auto. discriminate. Qed.

Lemma get_prop_total (v : value) (k : string) : get_prop v k <> OutOfFuel.
Proof. unfold get_prop. destruct (nullish v); discriminate. Qed.

Lemma audio_of_feed_total (audio : value) : audio_of_feed audio <> OutOfFuel.
Proof.
  unfold audio_of_feed.
  repeat (apply bind_result_total; [try apply get_prop_total|intro]); try discriminate.
  unfold lyric_of_prompt. destruct (truthy a1); [destruct a1|]; discriminate.
Qed.

Lemma map_result_total {A B} (f : A -> result B) (xs : list A) :
  (forall x, f x <> OutOfFuel) -> map_result f xs <> OutOfFuel.
Proof.
  intro Hf. induction xs as [|x xs IH]; simpl; [discriminate|].
  apply bind_result_total; [apply Hf|intro y].
  apply bind_result_total; [exact IH|discriminate].
Qed.

Lemma array_map_total {B} (f : value -> result B) (v : value) :
  (forall x, f x <> OutOfFuel) -> array_map f v <> OutOfFuel.
Proof.
  intro Hf. destruct v; simpl; try discriminate. now apply map_result_total.
Qed.

Section Polling.

Variable E : Env.
Variable L : Z.
Hypothesis latency_bound : forall n, Z.of_N (latency E n) <= L.

Lemma latency_range (n : nat) : 0 <= Z.of_N (latency E n) <= L.
Proof. split; [lia|apply latency_bound]. Qed.

Lemma L_nonneg : 0 <= L.
Proof. pose proof (latency_range 0). lia. Qed.

Lemma sleep_Some (x y : Z) (w : World) :
  sleep E x (Some y) w =
  (Ok tt, {| sid := sid w; currentToken := currentToken w;
             now := now w + clamp (1000 * Z.min x y) (1000 * Z.max x y) (jitter E (pauses w));
             log := log w; pauses := S (pauses w) |}).
Proof. reflexivity. Qed.

(** [keepAlive] always ends, and within one request and its pause. *)
Lemma keepAlive_summary (isWait : bool) (w : World) :
  fst (keepAlive E isWait w) <> OutOfFuel /\
  now w <= now (snd (keepAlive E isWait w))
        <= now w + L + (if isWait then 2000 else 0).
Proof.
  pose proof (latency_range (List.length (log w))) as HL.
  unfold keepAlive, bind, get_sid.
  destruct (truthy (sid w)); simpl.
  - rewrite send_eq.
    destruct (next_reply E w (ClerkRenew (sid w))) as [r|reason].
    + pose proof (clamp_bounds 1000 2000 (jitter E (pauses w)) ltac:(lia)) as HC.
      unfold lift, get_prop.
      destruct isWait; simpl; destruct (nullish (data r)); simpl;
        (split; [discriminate|lia]).
    + split; [discriminate|]. simpl. destruct isWait; lia.
  - split; [discriminate|]. simpl. destruct isWait; lia.
Qed.

(** A renewal with a pause that went through took at least a second. *)
Lemma keepAlive_wait_Ok (w w' : World) (u : unit) :
  keepAlive E true w = (Ok u, w') ->
  now w + 1000 <= now w' /\
  exists renewal, log w' = renewal :: log w /\ is_renewal renewal = true.
Proof.
  intro H. apply keepAlive_Ok in H as (r & _ & _ & _ & _ & _ & HL & _ & HN).
  pose proof (clamp_bounds 1000 2000 (jitter E (pauses w)) ltac:(lia)).
  pose proof (latency_range (List.length (log w))).
  split; [lia|]. rewrite HL. eexists. split; reflexivity.
Qed.

Lemma send_inv (ep : Endpoint) (w w' : World) (res : result Response) :
  send E ep w = (res, w') ->
  res <> OutOfFuel /\ w' = after_send E w ep /\ now w <= now w' <= now w + L.
Proof.
  rewrite send_eq. intro H. injection H as <- <-.
  pose proof (latency_range (List.length (log w))).
  split; [|split; [reflexivity|simpl; lia]].
  destruct (next_reply E w ep); discriminate.
Qed.

Lemma keepAlive_inv (isWait : bool) (w w' : World) (res : result unit) :
  keepAlive E isWait w = (res, w') ->
  res <> OutOfFuel /\ now w <= now w' <= now w + L + (if isWait then 2000 else 0).
Proof.
  intro H. pose proof (keepAlive_summary isWait w) as HS. now rewrite H in HS.
Qed.

(** A status query always ends, and within two requests. *)
Lemma get_inv (songIds : option (list value)) (w w' : World)
    (res : result (list AudioInfo)) :
  get E songIds w = (res, w') ->
  res <> OutOfFuel /\ now w <= now w' <= now w + 2 * L.
Proof.
  pose proof L_nonneg as HL0. unfold get. intro H.
  apply bind_inv in H as [(u & w1 & HK & H)|[(e & HK & ->)|[HK ->]]];
    apply keepAlive_inv in HK as [HT HN].
  - apply bind_inv in H as [(r & w2 & HS & H)|[(e & HS & ->)|[HS ->]]];
      apply send_inv in HS as (HT2 & _ & HN2).
    + unfold lift in H. injection H as <- <-. split; [|lia].
      apply array_map_total, audio_of_feed_total.
    + split; [discriminate|lia].
    + now contradiction HT2.
  - split; [discriminate|lia].
  - now contradiction HT.
Qed.

(** The records of a status query that went through are the snapshot of
    the log it leaves. *)
Lemma get_snapshot (songIds : option (list value)) (w w' : World)
    (records : list AudioInfo) :
  get E songIds w = (Ok records, w') ->
  exists feed renewal,
    log w' = feed :: renewal :: log w /\
    forall older, snapshot (feed :: older) = Ok records.
Proof.
  intro H. apply get_Ok in H as (w1 & r & HK & HR & HA & ->).
  apply keepAlive_Ok in HK as (r0 & _ & _ & _ & _ & _ & HL & _).
  simpl. rewrite HL. eexists _, _. split; [reflexivity|].
  intro older. simpl. now rewrite HR.
Qed.

Lemma snapshot_renewal (e : Event) (older : list Event) :
  is_renewal e = true -> snapshot (e :: older) = snapshot older.
Proof.
  unfold is_renewal. simpl. destruct (endpoint (request e)); try discriminate.
  reflexivity.
Qed.

(** A jittered pause lasts between its two bounds and sends nothing. *)
Lemma sleep_inv (x y : Z) (w w' : World) (res : result unit) :
  x <= y ->
  sleep E x (Some y) w = (res, w') ->
  res = Ok tt /\ log w' = log w /\
  now w + 1000 * x <= now w' <= now w + 1000 * y.
Proof.
  intros Hxy H. rewrite sleep_Some in H. injection H as <- <-.
  rewrite Z.min_l, Z.max_r by assumption.
  pose proof (clamp_bounds (1000 * x) (1000 * y) (jitter E (pauses w)) ltac:(lia)).
  split; [reflexivity|split; [reflexivity|]].
  change (now w + 1000 * x
          <= now w + clamp (1000 * x) (1000 * y) (jitter E (pauses w))
          <= now w + 1000 * y).
  lia.
Qed.

Lemma poll_unfold (fuel : nat) (startTime : Z) (songIds : list value)
    (lastResponse : list AudioInfo) (w : World) :
  poll E fuel startTime songIds lastResponse w =
  if now w - startTime <? 100000 then
    match fuel with
    | O => (OutOfFuel, w)
    | S fuel' =>
        bind (get E (Some songIds))
          (fun response =>
             if forallb terminal response then ret response
             else bind (sleep E 3 (Some 6))
                    (fun _ => bind (keepAlive E true)
                       (fun _ => poll E fuel' startTime songIds response))) w
    end
  else (Ok lastResponse, w).
Proof.
  destruct fuel; simpl; unfold bind at 1; unfold date_now at 1;
    destruct (now w - startTime <? 100000); reflexivity.
Qed.

(** The loop ends, and no later than one turn after the time limit:
    every completed turn moves the clock by four seconds at least, and no
    turn takes longer than [polling_interval L]. *)
Lemma poll_bounded (fuel : nat) (startTime : Z) (songIds : list value) :
  forall (lastResponse : list AudioInfo) (w w' : World) (res : result (list AudioInfo)),
    100000 - (now w - startTime) <= 4000 * Z.of_nat fuel ->
    now w - startTime < 100000 + polling_interval L ->
    poll E fuel startTime songIds lastResponse w = (res, w') ->
    res <> OutOfFuel /\ now w' - startTime < 100000 + polling_interval L.
Proof.
  pose proof L_nonneg as HL0. unfold polling_interval.
  induction fuel as [|fuel IH]; intros lastResponse w w' res Hfuel Hnow H;
    rewrite poll_unfold in H;
    destruct (now w - startTime <? 100000) eqn:Hc;
    try (injection H as <- <-; split; [discriminate|lia]).
  - apply Z.ltb_lt in Hc. lia.
  - apply Z.ltb_lt in Hc.
    apply bind_inv in H as [(records & w1 & HG & H)|[(e & HG & ->)|[HG ->]]];
      apply get_inv in HG as [HT HN]; [| split; [discriminate|lia] | now contradiction HT].
    destruct (forallb terminal records).
    + injection H as <- <-. split; [discriminate|lia].
    + apply bind_inv in H as [(u & w2 & HS & H)|[(e & HS & ->)|[HS ->]]];
        apply sleep_inv in HS as (HSr & _ & HSn); try lia; try discriminate.
      apply bind_inv in H as [(u' & w3 & HK & H)|[(e & HK & ->)|[HK ->]]].
      * pose proof (keepAlive_inv _ _ _ _ HK) as [_ HKn].
        apply keepAlive_wait_Ok in HK as [HKlo _].
        apply (IH records w3 w' res); [lia|lia|exact H].
      * apply keepAlive_inv in HK as [_ HKn]. split; [discriminate|lia].
      * apply keepAlive_inv in HK as [HKt _]. now contradiction HKt.
Qed.

(** What the loop returns is the last snapshot observed. *)
Lemma poll_snapshot (fuel : nat) (startTime : Z) (songIds : list value) :
  forall (lastResponse records : list AudioInfo) (w w' : World) (base seen : list Event),
    log w = seen ++ base ->
    snapshot seen = Ok lastResponse ->
    poll E fuel startTime songIds lastResponse w = (Ok records, w') ->
    exists seen', log w' = seen' ++ base /\ snapshot seen' = Ok records.
Proof.
  induction fuel as [|fuel IH]; intros lastResponse records w w' base seen Hlog Hsnap H;
    rewrite poll_unfold in H;
    destruct (now w - startTime <? 100000);
    try (injection H as <- <-; now exists seen); try discriminate.
  apply bind_inv in H as [(records1 & w1 & HG & H)|[(e & _ & He)|[_ He]]];
    try discriminate.
  apply get_snapshot in HG as (feed & renewal & HL1 & HS1).
  destruct (forallb terminal records1).
  - injection H as <- <-. exists (feed :: renewal :: seen).
    split; [now rewrite HL1, Hlog|apply HS1].
  - apply bind_inv in H as [(u & w2 & HS & H)|[(e & _ & He)|[_ He]]]; try discriminate.
    apply sleep_inv in HS as (_ & HL2 & _); [|lia].
    apply bind_inv in H as [(u' & w3 & HK & H)|[(e & _ & He)|[_ He]]]; try discriminate.
    apply keepAlive_wait_Ok in HK as (_ & renewal' & HL3 & Hr).
    apply (IH records1 records w3 w' base (renewal' :: feed :: renewal :: seen)).
    + now rewrite HL3, HL2, HL1, Hlog.
    + rewrite (snapshot_renewal _ _ Hr). apply HS1.
    + exact H.
Qed.

(** The block of lines 199-214 as a whole. *)
Lemma wait_for_audio_inv (fuel : nat) (songIds : list value) (w w' : World)
    (res : result (list AudioInfo)) :
  (24 <= fuel)%nat ->
  wait_for_audio E fuel songIds w = (res, w') ->
  res <> OutOfFuel /\
  now w' - now w < 100000 + polling_interval L /\
  forall records, res = Ok records ->
    exists seen, log w' = seen ++ log w /\ snapshot seen = Ok records.
Proof.
  intros Hfuel H. unfold wait_for_audio in H.
  unfold bind at 1 in H. unfold date_now at 1 in H.
  apply bind_inv in H as [(u & w1 & HS & H)|[(e & HS & ->)|[HS ->]]];
    apply sleep_inv in HS as (HSr & HSl & HSn); try lia; try discriminate.
  pose proof L_nonneg as HL0.
  split; [|split].
  - eapply poll_bounded; [| |exact H]; unfold polling_interval; lia.
  - eapply poll_bounded; [| |exact H]; unfold polling_interval; lia.
  - intros records ->.
    apply (poll_snapshot fuel (now w) songIds [] records w1 w' (log w) []);
      [now rewrite HSl|reflexivity|exact H].
Qed.

(** Against a well-behaved service, and with a session id, nothing in
    the loop throws. *)
Lemma keepAlive_well_behaved (isWait : bool) (w w' : World) (res : result unit) :
  well_behaved E -> truthy (sid w) = true ->
  keepAlive E isWait w = (res, w') ->
  res = Ok tt /\ sid w' = sid w.
Proof.
  intros [HW _] Hs H.
  pose proof (keepAlive_sid E isWait w) as Hsid. rewrite H in Hsid.
  split; [|exact Hsid]. revert H.
  unfold keepAlive, bind, get_sid. rewrite Hs. simpl. rewrite send_eq.
  destruct (HW (List.length (log w)) (next_request w (ClerkRenew (sid w))) eq_refl)
    as (r & HR & Hn).
  fold (next_reply E w (ClerkRenew (sid w))) in HR. rewrite HR.
  unfold lift, get_prop. rewrite Hn.
  destruct isWait; simpl; intro H; now injection H as <- _.
Qed.

Lemma get_well_behaved (songIds : option (list value)) (w w' : World)
    (res : result (list AudioInfo)) :
  well_behaved E -> truthy (sid w) = true ->
  get E songIds w = (res, w') ->
  (exists records, res = Ok records) /\ sid w' = sid w.
Proof.
  intros HW Hs H. unfold get in H.
  apply bind_inv in H as [(u & w1 & HK & H)|[(e & HK & ->)|[HK ->]]];
    apply (keepAlive_well_behaved _ _ _ _ HW Hs) in HK as [HK Hs1]; try discriminate.
  unfold bind in H. rewrite send_eq in H. unfold lift in H.
  destruct HW as [_ HW].
  destruct (HW (List.length (log w1)) (next_request w1 (Feed songIds))
              (ex_intro _ songIds eq_refl)) as (r & records & HR & HA).
  fold (next_reply E w1 (Feed songIds)) in HR. rewrite HR, HA in H.
  injection H as <- <-. split; [now exists records|exact Hs1].
Qed.

Lemma poll_well_behaved (fuel : nat) (startTime : Z) (songIds : list value) :
  forall (lastResponse : list AudioInfo) (w w' : World) (res : result (list AudioInfo)),
    well_behaved E -> truthy (sid w) = true ->
    poll E fuel startTime songIds lastResponse w = (res, w') ->
    res = OutOfFuel \/ exists records, res = Ok records.
Proof.
  induction fuel as [|fuel IH]; intros lastResponse w w' res HW Hs H;
    rewrite poll_unfold in H;
    destruct (now w - startTime <? 100000);
    try (injection H as <- <-; now (left + (right; eexists))).
  apply bind_inv in H as [(records & w1 & HG & H)|[(e & HG & ->)|[HG ->]]];
    apply (get_well_behaved _ _ _ _ HW Hs) in HG as [[records' HG] Hs1];
    try discriminate.
  destruct (forallb terminal records).
  - injection H as <- <-. right. now eexists.
  - apply bind_inv in H as [(u & w2 & HS & H)|[(e & HS & ->)|[HS ->]]];
      rewrite sleep_Some in HS; try discriminate.
    injection HS as _ <-.
    apply bind_inv in H as [(u' & w3 & HK & H)|[(e & HK & ->)|[HK ->]]];
      apply (keepAlive_well_behaved _ _ _ _ HW) in HK as [HK Hs3];
      try discriminate; try (simpl; now rewrite Hs1).
    apply (IH records w3 w' res HW); [|exact H].
    rewrite Hs3. simpl. now rewrite Hs1.
Qed.

(** [generateSongs] up to the point where it starts to wait. *)
Lemma generateSongs_wait_inv (fuel : nat) (text : jsstring) (isCustom : bool)
    (genre name : option jsstring) (make_instrumental : option bool)
    (w w' : World) (res : result (list AudioInfo)) :
  generateSongs E fuel text isCustom genre name make_instrumental true w = (res, w') ->
  (exists songIds w1,
     now w <= now w1 <= now w + 2 * L /\
     wait_for_audio E fuel songIds w1 = (res, w')) \/
  ((exists e, res = Throw e) /\ now w <= now w' <= now w + 2 * L).
Proof.
  pose proof L_nonneg as HL0. unfold generateSongs. intro H.
  apply bind_inv in H as [(u & w1 & HK & H)|[(e & HK & ->)|[HK ->]]];
    apply keepAlive_inv in HK as [HT HN];
    [| right; split; [now exists e|lia] | now contradiction HT].
  apply bind_inv in H as [(r & w2 & HS & H)|[(e & HS & ->)|[HS ->]]];
    apply send_inv in HS as (HT2 & _ & HN2);
    [| right; split; [now exists e|lia] | now contradiction HT2].
  destruct (negb (http_status r =? 200)).
  - injection H as <- <-. right. split; [now eexists|lia].
  - apply bind_inv in H as [(clips & w3 & HC & H)|[(e & HC & ->)|[HC ->]]];
      unfold lift in HC; injection HC as HC <-;
      [| right; split; [now exists e|lia] | now apply get_prop_total in HC].
    apply bind_inv in H as [(songIds & w4 & HI & H)|[(e & HI & ->)|[HI ->]]];
      unfold lift in HI; injection HI as HI <-;
      [| right; split; [now exists e|lia] |].
    + left. exists songIds, w2. split; [lia|exact H].
    + exfalso. revert HI. apply array_map_total. intro x. apply get_prop_total.
Qed.

(** C1: the waiting block of [generateSongs] always ends (the fuel for
    24 turns is never used up), and it ends less than the time limit of
    100000 ms plus one polling interval after it started, whatever the
    service reports; what it returns is the last snapshot observed, the
    empty list when no status query was answered; and once the time limit
    is reached the loop returns its last response as it is, without
    throwing.  [generateSongs] as a whole thus ends as well. *)
Theorem wait_for_audio_ends_within_bound :
  (forall fuel songIds w,
     (24 <= fuel)%nat ->
     fst (wait_for_audio E fuel songIds w) <> OutOfFuel /\
     now (snd (wait_for_audio E fuel songIds w)) - now w < 100000 + polling_interval L /\
     forall records,
       fst (wait_for_audio E fuel songIds w) = Ok records ->
       exists seen,
         log (snd (wait_for_audio E fuel songIds w)) = seen ++ log w /\
         snapshot seen = Ok records) /\
  (forall fuel startTime songIds lastResponse w,
     100000 <= now w - startTime ->
     poll E fuel startTime songIds lastResponse w = (Ok lastResponse, w)) /\
  (well_behaved E ->
   forall fuel songIds w,
     (24 <= fuel)%nat -> truthy (sid w) = true ->
     exists records, fst (wait_for_audio E fuel songIds w) = Ok records) /\
  (forall fuel text isCustom genre name make_instrumental w,
     (24 <= fuel)%nat ->
     fst (generateSongs E fuel text isCustom genre name make_instrumental true w)
     <> OutOfFuel /\
     now (snd (generateSongs E fuel text isCustom genre name make_instrumental true w))
     - now w < 100000 + polling_interval L + 2 * L).
Proof.
  pose proof L_nonneg as HL0.
  split; [|split; [|split]].
  - intros fuel songIds w Hfuel.
    destruct (wait_for_audio E fuel songIds w) as [res w'] eqn:H.
    apply (wait_for_audio_inv _ _ _ _ _ Hfuel H).
  - intros fuel startTime songIds lastResponse w Ht.
    rewrite poll_unfold.
    destruct (now w - startTime <? 100000) eqn:Hc; [|reflexivity].
    apply Z.ltb_lt in Hc. lia.
  - intros HW fuel songIds w Hfuel Hs.
    destruct (wait_for_audio E fuel songIds w) as [res w'] eqn:H. cbn [fst].
    destruct (wait_for_audio_inv _ _ _ _ _ Hfuel H) as (HT & _).
    unfold wait_for_audio in H.
    unfold bind at 1 in H. unfold date_now at 1 in H.
    unfold bind at 1 in H. rewrite sleep_Some in H.
    apply poll_well_behaved in H as [->|H]; [now contradiction HT|exact H|exact HW|exact Hs].
  - intros fuel text isCustom genre name mi w Hfuel.
    destruct (generateSongs E fuel text isCustom genre name mi true w) as [res w'] eqn:H.
    apply generateSongs_wait_inv in H as [(songIds & w1 & HN & H)|[[e ->] HN]].
    + apply (wait_for_audio_inv _ _ _ _ _ Hfuel) in H as (HT & HB & _).
      cbn [fst snd]. split; [exact HT|lia].
    + cbn [fst snd]. unfold polling_interval. split; [discriminate|lia].
Qed.

End Polling.

Lemma slow_service_well_behaved : well_behaved slow_service.
Proof.
  split; intros n req Hreq; simpl.
  - unfold service. destruct (endpoint req); try discriminate.
    eexists. split; reflexivity.
  - destruct Hreq as [ids Hreq]. unfold service. rewrite Hreq.
    destruct (Nat.leb 1000 n); eexists _, _; split; reflexivity.
Qed.

Lemma wait_for_audio_ends_within_bound_witness :
  let w := initialised slow_service in
  let ids := [VStr (lit "job-1")] in
  let run := wait_for_audio slow_service 24 ids w in
  (option_map (List.map status) (match fst run with Ok l => Some l | _ => None end)
   = Some [VStr (lit "queued")] /\
   now (snd run) - now w = 103600) /\
  (fst run <> OutOfFuel /\
   now (snd run) - now w < 100000 + polling_interval 100 /\
   exists seen,
     log (snd run) = seen ++ log w /\
     snapshot seen = Ok (match fst run with Ok l => l | _ => [] end)) /\
  poll slow_service 0 0 ids [] (snd run) = (Ok [], snd run) /\
  (exists records, fst run = Ok records) /\
  fst (generateSongs slow_service 24 (lit "a song") false None None None true w)
  <> OutOfFuel.
Proof.
  intros w ids run.
  assert (Hlat : forall n, Z.of_N (latency slow_service n) <= 100)
    by (intro n; simpl; lia).
  pose proof (wait_for_audio_ends_within_bound slow_service 100 Hlat)
    as (H1 & H2 & H3 & H4).
  split; [split|split; [|split; [|split]]].
  - vm_compute. reflexivity.
  - vm_compute. reflexivity.
  - destruct (H1 24%nat ids w (le_n 24)) as (Ha & Hb & Hc).
    split; [exact Ha|split; [exact Hb|]].
    apply Hc. vm_compute. reflexivity.
  - apply H2. vm_compute. discriminate.
  - apply (H3 slow_service_well_behaved 24%nat ids w (le_n 24)). reflexivity.
  - apply (H4 24%nat (lit "a song") false None None None w (le_n 24)).
Defined.

(** ** What every method keeps *)

Section Preservation.

Variable E : Env.
Variable I : World -> Prop.

Lemma preserves_ret {A} (a : A) : preserves I (ret a).
Proof. now intros w Hw. Qed.

Lemma preserves_throw {A} (e : exn) : preserves I (@throw A e).
Proof. now intros w Hw. Qed.

Lemma preserves_out_of_fuel {A} : preserves I (@out_of_fuel A).
Proof. now intros w Hw. Qed.

Lemma preserves_lift {A} (r : result A) : preserves I (lift r).
Proof. now intros w Hw. Qed.

Lemma preserves_date_now : preserves I date_now.
Proof. now intros w Hw. Qed.

Lemma preserves_bind {A B} (m : M A) (k : A -> M B) :
  preserves I m -> (forall a, preserves I (k a)) -> preserves I (bind m k).
Proof.
  intros Hm Hk w Hw. specialize (Hm w Hw). unfold bind.
  destruct (m w) as [[a|e|] w1]; simpl in Hm |- *; [now apply Hk|exact Hm|exact Hm].
Qed.

Lemma preserves_if {A} (c : bool) (m1 m2 : M A) :
  preserves I m1 -> preserves I m2 -> preserves I (if c then m1 else m2).
Proof. now destruct c. Qed.

(** The three steps all the public methods are made of. *)
Hypothesis keeps_sleep : forall x y, preserves I (sleep E x y).
Hypothesis keeps_send : forall ep, renews ep = false -> preserves I (send E ep).
Hypothesis keeps_keepAlive : forall isWait, preserves I (keepAlive E isWait).

Lemma preserves_get (songIds : option (list value)) : preserves I (get E songIds).
Proof.
  unfold get. apply preserves_bind; [apply keeps_keepAlive|intros _].
  apply preserves_bind; [now apply keeps_send|intro r]. apply preserves_lift.
Qed.

Lemma preserves_poll (fuel : nat) (startTime : Z) (songIds : list value)
    (lastResponse : list AudioInfo) :
  preserves I (poll E fuel startTime songIds lastResponse).
Proof.
  revert lastResponse. induction fuel as [|fuel IH]; intro lastResponse; simpl;
    (apply preserves_bind; [apply preserves_date_now|intro t]);
    (apply preserves_if; [|apply preserves_ret]).
  - apply preserves_out_of_fuel.
  - apply preserves_bind; [apply preserves_get|intro records].
    apply preserves_if; [apply preserves_ret|].
    apply preserves_bind; [apply keeps_sleep|intros _].
    apply preserves_bind; [apply keeps_keepAlive|intros _]. apply IH.
Qed.

Lemma preserves_wait_for_audio (fuel : nat) (songIds : list value) :
  preserves I (wait_for_audio E fuel songIds).
Proof.
  unfold wait_for_audio.
  apply preserves_bind; [apply preserves_date_now|intro t].
  apply preserves_bind; [apply keeps_sleep|intros _]. apply preserves_poll.
Qed.

Lemma preserves_generateSongs (fuel : nat) (text : jsstring) (isCustom : bool)
    (genre name : option jsstring) (make_instrumental : option bool) (wait_audio : bool) :
  preserves I (generateSongs E fuel text isCustom genre name make_instrumental wait_audio).
Proof.
  unfold generateSongs.
  apply preserves_bind; [apply keeps_keepAlive|intros _].
  apply preserves_bind; [now apply keeps_send|intro r].
  apply preserves_if; [apply preserves_throw|].
  apply preserves_bind; [apply preserves_lift|intro clips].
  apply preserves_bind; [apply preserves_lift|intro songIds].
  apply preserves_if; [apply preserves_wait_for_audio|].
  apply preserves_bind; [apply keeps_keepAlive|intros _]. apply preserves_lift.
Qed.

Lemma preserves_lyrics_loop (fuel : nat) (generateId : value) (r0 : Response) :
  preserves I (lyrics_loop E fuel generateId r0).
Proof.
  revert r0. induction fuel as [|fuel IH]; intro r0; simpl;
    (apply preserves_if; [|apply preserves_ret]).
  - apply preserves_out_of_fuel.
  - apply preserves_bind; [apply keeps_sleep|intros _].
    apply preserves_bind; [now apply keeps_send|intro r]. apply IH.
Qed.

Lemma preserves_generateLyrics (fuel : nat) (text : jsstring) :
  preserves I (generateLyrics E fuel text).
Proof.
  unfold generateLyrics.
  apply preserves_bind; [apply keeps_keepAlive|intros _].
  apply preserves_bind; [now apply keeps_send|intro r].
  apply preserves_bind; [apply preserves_lift|intro generateId].
  apply preserves_bind; [now apply keeps_send|intro r0].
  apply preserves_lyrics_loop.
Qed.

Lemma preserves_get_credits : preserves I (get_credits E).
Proof.
  unfold get_credits.
  apply preserves_bind; [apply keeps_keepAlive|intros _].
  apply preserves_bind; [now apply keeps_send|intro r].
  repeat (apply preserves_bind; [apply preserves_lift|intro]).
  apply preserves_ret.
Qed.

(** Whatever the caller does with the public methods keeps the property,
    as long as the initialisation keeps it or is not run again. *)
Lemma preserves_session (fuel : nat) (calls : list Call) (w : World) :
  existsb reinitialises calls = false \/ preserves I (init E) ->
  I w -> I (session E fuel calls w).
Proof.
  revert w. induction calls as [|c calls IH]; intros w Hinit Hw; simpl; [exact Hw|].
  assert (Hc : reinitialises c = false \/ preserves I (init E)).
  { destruct Hinit as [Hinit|Hinit]; [left|now right].
    simpl in Hinit. now apply orb_false_iff in Hinit. }
  apply IH.
  { destruct Hinit as [Hinit|Hinit]; [left|now right].
    simpl in Hinit. now apply orb_false_iff in Hinit. }
  destruct c; simpl.
  - destruct Hc as [Hc|Hc]; [discriminate|now apply Hc].
  - now apply keeps_keepAlive.
  - unfold generate. apply preserves_bind; [apply keeps_keepAlive|intros _|exact Hw].
    apply preserves_generateSongs.
  - now apply preserves_generateSongs.
  - now apply preserves_generateLyrics.
  - now apply preserves_get.
  - now apply preserves_get_credits.
Qed.

End Preservation.

(** ** The bearer token *)

Section Token.

Variable E : Env.

Lemma token_invariant_sleep (x : Z) (y : option Z) :
  preserves token_invariant (sleep E x y).
Proof. intros w Hw. exact Hw. Qed.

Lemma token_invariant_set_sid (v : value) : preserves token_invariant (set_sid v).
Proof. intros w Hw. exact Hw. Qed.

(** A request that is not a renewal goes out with the stored token and
    leaves the most recently obtained token as it is. *)
Lemma token_invariant_send (ep : Endpoint) :
  renews ep = false -> preserves token_invariant (send E ep).
Proof.
  intros Hep w [Ht Hl]. rewrite send_eq. unfold token_invariant.
  destruct ep; try discriminate Hep; simpl; rewrite <- Ht; repeat split; assumption.
Qed.

(** A renewal goes out with the token stored before it, and stores the
    token it obtains. *)
Lemma token_invariant_keepAlive (isWait : bool) :
  preserves token_invariant (keepAlive E isWait).
Proof.
  intros w [Ht Hl]. unfold keepAlive, bind, get_sid.
  destruct (truthy (sid w)); simpl; [|now split].
  rewrite send_eq.
  destruct (next_reply E w (ClerkRenew (sid w))) as [r|reason] eqn:HR.
  - unfold lift, get_prop.
    destruct isWait; simpl; destruct (nullish (data r)) eqn:Hn; simpl;
      unfold token_invariant; simpl; rewrite HR, Hn, <- Ht; repeat split; assumption.
  - unfold token_invariant. simpl. rewrite HR, <- Ht. repeat split; assumption.
Qed.

Lemma token_invariant_init : preserves token_invariant (init E).
Proof.
  unfold init, getAuthToken.
  apply preserves_bind; [|intros _; apply token_invariant_keepAlive].
  apply preserves_bind; [now apply token_invariant_send|intro r].
  apply preserves_if; [apply preserves_throw|].
  apply preserves_bind; [apply preserves_lift|intro response].
  apply preserves_bind; [apply preserves_lift|intro session].
  apply token_invariant_set_sid.
Qed.

Lemma sid_kept_by_sleep (s : value) (x : Z) (y : option Z) :
  preserves (fun w => sid w = s) (sleep E x y).
Proof. intros w Hw. exact Hw. Qed.

Lemma sid_kept_by_send (s : value) (ep : Endpoint) :
  preserves (fun w => sid w = s) (send E ep).
Proof. intros w Hw. rewrite send_eq. exact Hw. Qed.

Lemma sid_kept_by_keepAlive (s : value) (isWait : bool) :
  preserves (fun w => sid w = s) (keepAlive E isWait).
Proof. intros w Hw. now rewrite keepAlive_sid. Qed.

(** Each request of an authenticated log carries the token obtained
    last before it. *)
Lemma authenticated_log_at (newer older : list Event) (e : Event) :
  authenticated_log (newer ++ e :: older) ->
  authorization (request e) = bearer (obtained older).
Proof.
  induction newer as [|e' newer IH]; simpl; intros [H1 H2]; [exact H1|now apply IH].
Qed.

(** C9: on a client made by [newSunoApi], whatever public methods the
    caller invokes afterwards, every request that went out carries in its
    Authorization header the token most recently obtained before it, and
    goes out without the header when no token had been obtained (so the
    requests of a fresh client are bare); the stored token is the most
    recently obtained one; the session id is the one set by the
    initialisation, unless the caller runs the initialisation again, and
    a renewal changes no field but the token. *)
Theorem requests_carry_latest_token (fuel : nat) (calls : list Call) (t0 : Z) :
  let w0 := snd (newSunoApi E t0) in
  let w := session E fuel calls w0 in
  (forall newer e older,
     log w = newer ++ e :: older ->
     (truthy (obtained older) = true ->
      authorization (request e) = Some (obtained older)) /\
     (truthy (obtained older) = false -> authorization (request e) = None)) /\
  currentToken w = obtained (log w) /\
  (forall ep, authorization (next_request (new_client t0) ep) = None) /\
  (existsb reinitialises calls = false -> sid w = sid w0) /\
  (forall isWait w1, sid (snd (keepAlive E isWait w1)) = sid w1) /\
  (forall isWait w1 w2 u,
     keepAlive E isWait w1 = (Ok u, w2) ->
     exists r, next_reply E w1 (ClerkRenew (sid w1)) = Resolve r /\
               currentToken w2 = prop (data r) "jwt").
Proof.
  intros w0 w.
  assert (Hinv : token_invariant w).
  { apply preserves_session.
    - apply token_invariant_sleep.
    - apply token_invariant_send.
    - apply token_invariant_keepAlive.
    - right. apply token_invariant_init.
    - apply token_invariant_init. split; [reflexivity|exact Logic.I]. }
  destruct Hinv as [Ht Hl].
  split; [|split; [|split; [|split; [|split]]]].
  - intros newer e older Hlog. rewrite Hlog in Hl.
    apply authenticated_log_at in Hl. rewrite Hl. unfold bearer.
    split; intro Hb; now rewrite Hb.
  - exact Ht.
  - reflexivity.
  - intro Hcalls. apply (preserves_session E (fun w' => sid w' = sid w0)).
    + apply sid_kept_by_sleep.
    + intros ep _. apply sid_kept_by_send.
    + apply sid_kept_by_keepAlive.
    + now left.
    + reflexivity.
  - intros isWait w1. apply keepAlive_sid.
  - intros isWait w1 w2 u H.
    apply keepAlive_Ok in H as (r & _ & HR & _ & _ & HT & _).
    now exists r.
Qed.

End Token.

Lemma requests_carry_latest_token_witness :
  let w := session signed_in 5 [CallGet None; CallGetCredits] (initialised signed_in) in
  (exists newer e older,
     log w = newer ++ e :: older /\
     endpoint (request e) = Feed None /\
     obtained older = VStr (lit "jwt-" ++ [2%N]) /\
     authorization (request e) = Some (obtained older)) /\
  currentToken w = obtained (log w) /\
  sid w = VStr (lit "sess_1").
Proof.
  intro w.
  destruct (requests_carry_latest_token signed_in 5 [CallGet None; CallGetCredits] 0)
    as (Hreq & Htoken & _ & Hsid & _).
  fold (initialised signed_in) in Hreq, Htoken, Hsid. fold w in Hreq, Htoken, Hsid.
  split; [|split].
  - exists (firstn 2 (log w)), (nth 2 (log w) bare_identity_request), (skipn 3 (log w)).
    assert (Hlog : log w = firstn 2 (log w)
                           ++ nth 2 (log w) bare_identity_request :: skipn 3 (log w))
      by (vm_compute; reflexivity).
    split; [exact Hlog|].
    split; [vm_compute; reflexivity|].
    split; [vm_compute; reflexivity|].
    apply (Hreq _ _ _ Hlog). vm_compute. reflexivity.
  - exact Htoken.
  - rewrite Hsid by reflexivity. vm_compute. reflexivity.
Defined.

(** * Further properties of the client *)

(** ** [parseLyrics] *)

Lemma split_no_sep (sep : jschar) (s : jsstring) :
  ~ In sep s -> split sep s = [s].
Proof.
  induction s as [|c s IH]; simpl; intro H; [reflexivity|].
  destruct (N.eqb c sep) eqn:Hc.
  - apply N.eqb_eq in Hc. exfalso. apply H. now left.
  - rewrite IH; [reflexivity|]. intro Hin. apply H. now right.
Qed.

Lemma split_app_sep (sep : jschar) (p t : jsstring) :
  ~ In sep p -> split sep (p ++ sep :: t) = p :: split sep t.
Proof.
  induction p as [|c p IH]; simpl; intro H.
  - now rewrite N.eqb_refl.
  - destruct (N.eqb c sep) eqn:Hc.
    + apply N.eqb_eq in Hc. exfalso. apply H. now left.
    + rewrite IH; [reflexivity|]. intro Hin. apply H. now right.
Qed.

(** Joining pieces that are free of the separator and splitting again
    gives the pieces back. *)
Lemma split_join (sep : jschar) (pieces : list jsstring) :
  pieces <> [] ->
  Forall (fun piece => ~ In sep piece) pieces ->
  split sep (join sep pieces) = pieces.
Proof.
  induction pieces as [|p rest IH]; intros Hne HF; [contradiction|].
  inversion HF as [|? ? Hp Hrest]; subst.
  destruct rest as [|q rest].
  - simpl. now apply split_no_sep.
  - change (join sep (p :: q :: rest)) with (p ++ sep :: join sep (q :: rest)).
    rewrite split_app_sep by assumption.
    rewrite IH; [reflexivity|discriminate|assumption].
Qed.

Lemma Forall_filter {A} (P : A -> Prop) (f : A -> bool) (l : list A) :
  Forall P l -> Forall P (filter f l).
Proof.
  induction 1 as [|x l Hx HF IH]; simpl; [constructor|].
  destruct (f x); [now constructor|exact IH].
Qed.

Lemma filter_all {A} (f : A -> bool) (l : list A) :
  forallb f l = true -> filter f l = l.
Proof.
  induction l as [|x l IH]; simpl; [reflexivity|].
  intro H. apply andb_true_iff in H as [Hx Hl]. rewrite Hx. now rewrite IH.
Qed.

Lemma forallb_filter {A} (f : A -> bool) (l : list A) :
  forallb f (filter f l) = true.
Proof.
  induction l as [|x l IH]; simpl; [reflexivity|].
  destruct (f x) eqn:Hx; simpl; [now rewrite Hx|exact IH].
Qed.

Lemma non_blank_lines_free_of_LF (s : jsstring) :
  Forall (fun line => ~ In LF line) (non_blank_lines s).
Proof. unfold non_blank_lines. apply Forall_filter, split_pieces. Qed.

Lemma parseLyrics_nil : parseLyrics [] = [].
Proof. reflexivity. Qed.

(** The lines of a processed lyric are the lines that were kept. *)
Lemma lines_of_parseLyrics (s : jsstring) :
  non_blank_lines s <> [] ->
  split LF (parseLyrics s) = non_blank_lines s.
Proof.
  intro Hne. rewrite parseLyrics_non_blank_lines.
  apply split_join; [exact Hne|apply non_blank_lines_free_of_LF].
Qed.

(** X1: processing a lyric twice changes nothing more: [parseLyrics] is
    idempotent. *)
Theorem parseLyrics_idempotent (s : jsstring) :
  parseLyrics (parseLyrics s) = parseLyrics s.
Proof.
  destruct (non_blank_lines s) as [|l ls] eqn:HL.
  - rewrite (parseLyrics_non_blank_lines s), HL. reflexivity.
  - assert (Hne : non_blank_lines s <> []) by (rewrite HL; discriminate).
    rewrite (parseLyrics_non_blank_lines (parseLyrics s)).
    unfold non_blank_lines at 1. rewrite (lines_of_parseLyrics s Hne).
    rewrite filter_all.
    + symmetry. apply parseLyrics_non_blank_lines.
    + unfold non_blank_lines. apply forallb_filter.
Qed.

(** X2: a prompt none of whose lines is empty or white space only comes
    back unchanged. *)
Theorem parseLyrics_keeps_prompt_without_blank_lines (s : jsstring) :
  forallb (fun line => negb (forallb is_whitespace line)) (split LF s) = true ->
  parseLyrics s = s.
Proof.
  intro H. rewrite parseLyrics_non_blank_lines. unfold non_blank_lines.
  rewrite filter_all by exact H. apply join_split.
Qed.

Lemma parseLyrics_keeps_prompt_without_blank_lines_witness :
  parseLyrics (lit "line1" ++ [LF] ++ lit "line2") = lit "line1" ++ [LF] ++ lit "line2".
Proof.
  apply (parseLyrics_keeps_prompt_without_blank_lines (lit "line1" ++ [LF] ++ lit "line2")).
  vm_compute. reflexivity.
Defined.

Lemma split_chars (sep : jschar) (s piece : jsstring) (c : jschar) :
  In piece (split sep s) -> In c piece -> In c s.
Proof.
  revert piece. induction s as [|x s IH]; simpl; intros piece Hp Hc.
  - destruct Hp as [<-|[]]. destruct Hc.
  - destruct (N.eqb x sep).
    + destruct Hp as [<-|Hp]; [destruct Hc|]. right. now apply (IH piece).
    + destruct (split sep s) as [|p ps] eqn:HS.
      * destruct Hp as [<-|[]]. destruct Hc as [<-|[]]. now left.
      * destruct Hp as [<-|Hp].
        -- destruct Hc as [<-|Hc]; [now left|]. right. apply (IH p); [now left|exact Hc].
        -- right. apply (IH piece); [now right|exact Hc].
Qed.

Lemma forallb_join (f : jschar -> bool) (sep : jschar) (pieces : list jsstring) :
  f sep = true -> forallb (forallb f) pieces = true ->
  forallb f (join sep pieces) = true.
Proof.
  intro Hsep. induction pieces as [|p rest IH]; intro H; [reflexivity|].
  simpl in H. apply andb_true_iff in H as [Hp Hrest].
  destruct rest as [|q rest]; [exact Hp|].
  change (join sep (p :: q :: rest)) with (p ++ sep :: join sep (q :: rest)).
  rewrite forallb_app. simpl. rewrite Hp, Hsep. simpl. now apply IH.
Qed.

Lemma join_nil (sep : jschar) (pieces : list jsstring) :
  join sep pieces = [] -> pieces = [] \/ pieces = [[]].
Proof.
  destruct pieces as [|p [|q rest]]; simpl; intro H.
  - now left.
  - right. now subst.
  - destruct p; discriminate.
Qed.

(** X3: the processed lyric is empty exactly when the prompt consists of
    white space (line breaks included) only. *)
Theorem parseLyrics_empty_iff_whitespace (s : jsstring) :
  parseLyrics s = [] <-> forallb is_whitespace s = true.
Proof.
  rewrite parseLyrics_non_blank_lines. split; intro H.
  - assert (HL : non_blank_lines s = []).
    { apply join_nil in H as [H|H]; [exact H|].
      pose proof (forallb_filter (fun line => negb (forallb is_whitespace line))
                    (split LF s)) as HF.
      fold (non_blank_lines s) in HF. rewrite H in HF. discriminate. }
    rewrite <- (join_split LF s). apply forallb_join; [reflexivity|].
    apply forallb_forall. intros line Hline.
    destruct (forallb is_whitespace line) eqn:Hb; [reflexivity|].
    assert (Hin : In line (non_blank_lines s)).
    { unfold non_blank_lines. apply filter_In. split; [exact Hline|now rewrite Hb]. }
    rewrite HL in Hin. destruct Hin.
  - assert (HL : non_blank_lines s = []); [|now rewrite HL].
    destruct (non_blank_lines s) as [|line rest] eqn:HF; [reflexivity|].
    assert (Hin : In line (non_blank_lines s)) by (rewrite HF; now left).
    unfold non_blank_lines in Hin.
    apply filter_In in Hin as [Hline Hb]. apply negb_true_iff in Hb.
    assert (Hall : forallb is_whitespace line = true); [|congruence].
    apply forallb_forall. intros c Hc.
    rewrite forallb_forall in H. apply H. now apply (split_chars LF s line).
Qed.

(** ** Before and after initialisation *)

Section Lifecycle.

Variable E : Env.

(** X4: on a client without a session id every public method but [init]
    fails with [StateError] at its first step and leaves the world as it
    was: nothing is sent, no pause is taken, no field is written. *)
Theorem methods_fail_without_session (w : World) :
  truthy (sid w) = false ->
  (forall fuel text mi wa, generate E fuel text mi wa w = (Throw StateError, w)) /\
  (forall fuel text genre name mi wa,
     custom_generate E fuel text genre name mi wa w = (Throw StateError, w)) /\
  (forall fuel text, generateLyrics E fuel text w = (Throw StateError, w)) /\
  (forall songIds, get E songIds w = (Throw StateError, w)) /\
  get_credits E w = (Throw StateError, w).
Proof.
  intro Hs. pose proof (keepAlive_no_session E false w Hs) as HK.
  repeat split; intros;
    unfold generate, custom_generate, generateSongs, generateLyrics, get, get_credits;
    now rewrite (bind_Throw _ _ _ _ _ HK).
Qed.

(** How [getAuthToken] can end: with a truthy session id stored, or with
    an exception and both fields untouched. *)
Lemma getAuthToken_inv (w w' : World) (res : result unit) :
  getAuthToken E w = (res, w') ->
  (res = Ok tt /\ truthy (sid w') = true /\ currentToken w' = currentToken w) \/
  ((exists e, res = Throw e) /\ sid w' = sid w /\ currentToken w' = currentToken w).
Proof.
  destruct (next_reply E w ClerkClient) as [r|reason] eqn:HR.
  - rewrite (getAuthToken_answered E w r HR).
    destruct (truthy (session_id_of r)) eqn:Ht; intro H; injection H as <- <-.
    + left. simpl. now repeat split.
    + right. simpl. repeat split. now eexists.
  - unfold getAuthToken. rewrite (bind_Throw _ _ _ _ _ (send_Reject E _ _ _ HR)).
    intro H. injection H as <- <-. right. simpl. repeat split. now eexists.
Qed.

Lemma sid_truthy_kept_by_init : preserves (fun w => truthy (sid w) = true) (init E).
Proof.
  intros w Hw. unfold init, bind.
  destruct (getAuthToken E w) as [[u|e|] w1] eqn:HG;
    apply getAuthToken_inv in HG as [(HR & Hs & _)|([e' HR] & Hs & _)];
    try discriminate; simpl.
  - now rewrite keepAlive_sid.
  - now rewrite Hs.
Qed.

(** X5: once [newSunoApi] has returned, the client holds a truthy session
    id for good: whatever public methods are called afterwards, [init]
    included and whether they return or throw, the session id stays
    truthy, so no later renewal fails with [StateError]. *)
Theorem initialised_client_keeps_session (fuel : nat) (calls : list Call) (t0 : Z) :
  fst (newSunoApi E t0) = Ok tt ->
  let w := session E fuel calls (snd (newSunoApi E t0)) in
  truthy (sid w) = true /\
  forall isWait, fst (keepAlive E isWait w) <> Throw StateError.
Proof.
  intros Hok w.
  assert (Hs : truthy (sid w) = true).
  { apply (preserves_session E (fun w' => truthy (sid w') = true)).
    - intros x y w1 Hw1. exact Hw1.
    - intros ep _ w1 Hw1. rewrite send_eq. exact Hw1.
    - intros isWait w1 Hw1. simpl. now rewrite keepAlive_sid.
    - right. apply sid_truthy_kept_by_init.
    - unfold newSunoApi in *. unfold init, bind in *.
      destruct (getAuthToken E (new_client t0)) as [[u|e|] w1] eqn:HG;
        simpl in Hok; try discriminate.
      apply getAuthToken_inv in HG as [(_ & Hs & _)|([e' HR] & _)]; [|discriminate].
      now rewrite keepAlive_sid. }
  split; [exact Hs|].
  intros isWait He.
  destruct (keepAlive E isWait w) as [res w'] eqn:HK. simpl in He. subst res.
  apply keepAlive_Throw in HK as [[_ Hf]|[H|[reason H]]]; [congruence|discriminate|discriminate].
Qed.

(** X6: a renewal that fails, because the request is rejected or is
    answered without a body, leaves the stored token and the session id
    as they were; an initialisation that fails at the identity step leaves
    both fields as they were too. *)
Theorem failed_renewal_keeps_token :
  (forall isWait w w' e,
     keepAlive E isWait w = (Throw e, w') ->
     currentToken w' = currentToken w /\ sid w' = sid w) /\
  (forall w w' e,
     getAuthToken E w = (Throw e, w') ->
     currentToken w' = currentToken w /\ sid w' = sid w).
Proof.
  split.
  - intros isWait w w' e H. split.
    + revert H. unfold keepAlive, bind, get_sid.
      destruct (truthy (sid w)); simpl; [|intro H; now injection H as _ <-].
      rewrite send_eq.
      destruct (next_reply E w (ClerkRenew (sid w))) as [r|reason];
        [|intro H; now injection H as _ <-].
      unfold lift, get_prop.
      destruct isWait; simpl; destruct (nullish (data r)); simpl;
        intro H; try discriminate; now injection H as _ <-.
    + pose proof (keepAlive_sid E isWait w) as Hs. now rewrite H in Hs.
  - intros w w' e H.
    apply getAuthToken_inv in H as [(HR & _)|(_ & Hs & Ht)]; [discriminate|now split].
Qed.


End Lifecycle.

Lemma methods_fail_without_session_witness :
  get signed_in None (new_client 0) = (Throw StateError, new_client 0) /\
  get_credits signed_in (new_client 0) = (Throw StateError, new_client 0).
Proof.
  destruct (methods_fail_without_session signed_in (new_client 0) eq_refl)
    as (_ & _ & _ & Hget & Hcredits).
  split; [apply Hget|exact Hcredits].
Defined.

Lemma initialised_client_keeps_session_witness :
  let w := session signed_in 5 [CallGet None; CallInit; CallGetCredits]
             (snd (newSunoApi signed_in 0)) in
  truthy (sid w) = true /\
  forall isWait, fst (keepAlive signed_in isWait w) <> Throw StateError.
Proof.
  apply (initialised_client_keeps_session signed_in 5
           [CallGet None; CallInit; CallGetCredits] 0).
  vm_compute. reflexivity.
Defined.

Lemma failed_renewal_keeps_token_witness :
  let w := initialised signed_in in
  fst (keepAlive offline true w) = Throw (AxiosError (lit "Network Error")) /\
  currentToken (snd (keepAlive offline true w)) = VStr (lit "jwt-" ++ [1%N]) /\
  fst (getAuthToken offline w) = Throw (AxiosError (lit "Network Error")) /\
  sid (snd (getAuthToken offline w)) = VStr (lit "sess_1").
Proof.
  intro w.
  destruct (proj1 (failed_renewal_keeps_token offline) true w
              (snd (keepAlive offline true w)) (AxiosError (lit "Network Error")))
    as [Ht _]; [vm_compute; reflexivity|].
  destruct (proj2 (failed_renewal_keeps_token offline) w
              (snd (getAuthToken offline w)) (AxiosError (lit "Network Error")))
    as [_ Hs]; [vm_compute; reflexivity|].
  split; [vm_compute; reflexivity|split; [|split; [vm_compute; reflexivity|]]].
  - rewrite Ht. vm_compute. reflexivity.
  - rewrite Hs. vm_compute. reflexivity.
Defined.


(** ** Which payloads can be mapped *)

Lemma lyric_of_prompt_defined (p : value) :
  (exists l, lyric_of_prompt p = Ok l) <->
  (truthy p = false \/ exists s, p = VStr s).
Proof.
  unfold lyric_of_prompt. split.
  - intros [l H]. destruct (truthy p) eqn:Ht; [|now left].
    right. destruct p; try discriminate. now eexists.
  - intros [Ht|[s ->]].
    + rewrite Ht. now eexists.
    + destruct (truthy (VStr s)); now eexists.
Qed.

Lemma audio_of_feed_Throw (audio : value) (e : exn) :
  audio_of_feed audio = Throw e -> e = TypeError.
Proof.
  unfold audio_of_feed, get_prop, lyric_of_prompt.
  destruct (nullish audio); simpl; [intro H; now injection H|].
  destruct (nullish (prop audio "metadata")); simpl; [intro H; now injection H|].
  destruct (truthy (prop (prop audio "metadata") "prompt"));
    [destruct (prop (prop audio "metadata") "prompt")|];
    simpl; intro H; try discriminate; now injection H.
Qed.

Lemma audio_of_clip_Throw (audio : value) (e : exn) :
  audio_of_clip audio = Throw e -> e = TypeError.
Proof.
  unfold audio_of_clip, get_prop.
  destruct (nullish audio); simpl; [intro H; now injection H|].
  destruct (nullish (prop audio "metadata")); simpl; [intro H; now injection H|].
  discriminate.
Qed.

(** X8: the immediate branch maps exactly the elements that are not
    nullish and have a [metadata] that is not nullish; [get] maps exactly
    those among them whose prompt is falsy or a string, so a truthy prompt
    of another type makes [get] throw where the immediate branch returns.
    Whenever a mapping fails it fails with a [TypeError]. *)
Theorem mappable_payloads (audio : value) :
  ((exists r, audio_of_clip audio = Ok r) <->
   nullish audio = false /\ nullish (prop audio "metadata") = false) /\
  ((exists r, audio_of_feed audio = Ok r) <->
   nullish audio = false /\ nullish (prop audio "metadata") = false /\
   (truthy (raw_prompt audio) = false \/ exists s, raw_prompt audio = VStr s)) /\
  ((forall r, audio_of_clip audio <> Ok r) -> audio_of_clip audio = Throw TypeError) /\
  ((forall r, audio_of_feed audio <> Ok r) -> audio_of_feed audio = Throw TypeError).
Proof.
  split; [|split; [|split]].
  - split.
    + intros [r H]. unfold audio_of_clip in H.
      apply bind_result_Ok in H as (a & Ha & H). apply get_prop_Ok in Ha as [Ha _].
      apply bind_result_Ok in H as (m & Hm & H). apply get_prop_Ok in Hm as [_ ->].
      apply bind_result_Ok in H as (p & Hp & H). apply get_prop_Ok in Hp as [Hp _].
      now split.
    + intros [Ha Hm]. now apply audio_of_clip_defined.
  - split.
    + intros [r H]. pose proof (audio_of_feed_fields audio r H) as HF. cbv zeta in HF.
      destruct HF as (Hl & _).
      unfold audio_of_feed in H.
      apply bind_result_Ok in H as (a & Ha & H). apply get_prop_Ok in Ha as [Ha _].
      apply bind_result_Ok in H as (m & Hm & H). apply get_prop_Ok in Hm as [_ ->].
      apply bind_result_Ok in H as (p & Hp & H). apply get_prop_Ok in Hp as [Hp _].
      split; [exact Ha|split; [exact Hp|]].
      apply lyric_of_prompt_defined. exists (lyric r). exact Hl.
    + intros (Ha & Hm & Hp). apply lyric_of_prompt_defined in Hp as [l Hl].
      now apply (audio_of_feed_defined audio l).
  - intro H. destruct (audio_of_clip audio) as [r|e|] eqn:Hr.
    + now contradiction (H r).
    + now rewrite (audio_of_clip_Throw audio e Hr).
    + exfalso. revert Hr. unfold audio_of_clip.
      repeat (apply bind_result_total; [apply get_prop_total|intro]). discriminate.
  - intro H. destruct (audio_of_feed audio) as [r|e|] eqn:Hr.
    + now contradiction (H r).
    + now rewrite (audio_of_feed_Throw audio e Hr).
    + now apply audio_of_feed_total in Hr.
Qed.

Lemma mappable_payloads_witness :
  (exists r, audio_of_clip numeric_prompt_job = Ok r) /\
  audio_of_feed numeric_prompt_job = Throw TypeError /\
  audio_of_clip bare_job = Throw TypeError /\
  (exists r, audio_of_feed promptless_job = Ok r).
Proof.
  split; [|split; [|split]].
  - apply (proj1 (mappable_payloads numeric_prompt_job)). split; reflexivity.
  - apply (proj2 (proj2 (proj2 (mappable_payloads numeric_prompt_job)))).
    intros r H.
    destruct (proj1 (proj1 (proj2 (mappable_payloads numeric_prompt_job)))
                (ex_intro _ r H)) as (_ & _ & [Hf|[s Hs]]); discriminate.
  - apply (proj1 (proj2 (proj2 (mappable_payloads bare_job)))).
    intros r H.
    destruct (proj1 (proj1 (mappable_payloads bare_job)) (ex_intro _ r H)) as (_ & Hm).
    discriminate.
  - apply (proj2 (proj1 (proj2 (mappable_payloads promptless_job)))).
    split; [reflexivity|split; [reflexivity|now left]].
Defined.

(** ** A status query maps the whole feed or nothing *)



Section Feed.

Variable E : Env.


End Feed.


(** ** The endpoints each method contacts *)

Lemma talks_to_quiet {A} (allowed : Endpoint -> bool) (m : M A) :
  (forall w, log (snd (m w)) = log w) -> talks_to allowed m.
Proof. intros H w. exists []. now rewrite H. Qed.

Lemma talks_to_weaken {A} (allowed allowed' : Endpoint -> bool) (m : M A) :
  (forall ep, allowed ep = true -> allowed' ep = true) ->
  talks_to allowed m -> talks_to allowed' m.
Proof.
  intros Hsub Hm w. destruct (Hm w) as (sent & Hlog & Hall).
  exists sent. split; [exact Hlog|].
  rewrite forallb_forall in Hall |- *. intros e He. apply Hsub. now apply Hall.
Qed.

Lemma talks_to_bind {A B} (allowed : Endpoint -> bool) (m : M A) (k : A -> M B) :
  talks_to allowed m -> (forall a, talks_to allowed (k a)) -> talks_to allowed (bind m k).
Proof.
  intros Hm Hk w. destruct (Hm w) as (sent & Hlog & Hall). unfold bind.
  destruct (m w) as [[a|e|] w1]; simpl in Hlog |- *; try (now exists sent).
  destruct (Hk a w1) as (sent' & Hlog' & Hall').
  exists (sent' ++ sent). rewrite Hlog', Hlog, app_assoc. split; [reflexivity|].
  rewrite forallb_app. now rewrite Hall', Hall.
Qed.

Lemma talks_to_if {A} (allowed : Endpoint -> bool) (c : bool) (m1 m2 : M A) :
  talks_to allowed m1 -> talks_to allowed m2 -> talks_to allowed (if c then m1 else m2).
Proof. now destruct c. Qed.

Section Footprint.

Variable E : Env.

Lemma talks_to_send (allowed : Endpoint -> bool) (ep : Endpoint) :
  allowed ep = true -> talks_to allowed (send E ep).
Proof.
  intros Hep w. rewrite send_eq. eexists [_]. split; [reflexivity|].
  unfold next_request. simpl. now rewrite Hep.
Qed.

Lemma talks_to_keepAlive (isWait : bool) : talks_to renews (keepAlive E isWait).
Proof.
  unfold keepAlive. apply talks_to_bind; [now apply talks_to_quiet|intro session].
  apply talks_to_if; [now apply talks_to_quiet|].
  apply talks_to_bind; [now apply talks_to_send|intro r].
  apply talks_to_bind; [destruct isWait; now apply talks_to_quiet|intros _].
  apply talks_to_bind; [now apply talks_to_quiet|intro t]. now apply talks_to_quiet.
Qed.

Lemma talks_to_keepAlive_in (allowed : Endpoint -> bool) (isWait : bool) :
  (forall ep, renews ep = true -> allowed ep = true) ->
  talks_to allowed (keepAlive E isWait).
Proof. intro H. apply (talks_to_weaken renews); [exact H|apply talks_to_keepAlive]. Qed.

Lemma talks_to_get (songIds : option (list value)) :
  talks_to (fun ep => renews ep || is_feed ep) (get E songIds).
Proof.
  unfold get. apply talks_to_bind;
    [apply talks_to_keepAlive_in; now intros ep ->|intros _].
  apply talks_to_bind; [now apply talks_to_send|intro r]. now apply talks_to_quiet.
Qed.

Lemma talks_to_poll (fuel : nat) (startTime : Z) (songIds : list value)
    (lastResponse : list AudioInfo) :
  talks_to (fun ep => renews ep || is_feed ep)
    (poll E fuel startTime songIds lastResponse).
Proof.
  revert lastResponse. induction fuel as [|fuel IH]; intro lastResponse; simpl;
    (apply talks_to_bind; [now apply talks_to_quiet|intro t]);
    (apply talks_to_if; [|now apply talks_to_quiet]).
  - now apply talks_to_quiet.
  - apply talks_to_bind; [apply talks_to_get|intro records].
    apply talks_to_if; [now apply talks_to_quiet|].
    apply talks_to_bind; [now apply talks_to_quiet|intros _].
    apply talks_to_bind; [apply talks_to_keepAlive_in; now intros ep ->|intros _].
    apply IH.
Qed.

Lemma talks_to_wait_for_audio (fuel : nat) (songIds : list value) :
  talks_to (fun ep => renews ep || is_feed ep) (wait_for_audio E fuel songIds).
Proof.
  unfold wait_for_audio.
  apply talks_to_bind; [now apply talks_to_quiet|intro t].
  apply talks_to_bind; [now apply talks_to_quiet|intros _]. apply talks_to_poll.
Qed.

Lemma talks_to_generateSongs (fuel : nat) (text : jsstring) (isCustom : bool)
    (genre name : option jsstring) (make_instrumental : option bool) (wait_audio : bool) :
  talks_to (fun ep => renews ep || is_generate ep || is_feed ep)
    (generateSongs E fuel text isCustom genre name make_instrumental wait_audio).
Proof.
  unfold generateSongs.
  apply talks_to_bind; [apply talks_to_keepAlive_in; now intros ep ->|intros _].
  apply talks_to_bind; [now apply talks_to_send|intro r].
  apply talks_to_if; [now apply talks_to_quiet|].
  apply talks_to_bind; [now apply talks_to_quiet|intro clips].
  apply talks_to_bind; [now apply talks_to_quiet|intro songIds].
  apply talks_to_if.
  - apply (talks_to_weaken (fun ep => renews ep || is_feed ep));
      [|apply talks_to_wait_for_audio].
    intros ep H. apply orb_true_iff in H as [->| ->]; [reflexivity|apply orb_true_r].
  - apply talks_to_bind; [apply talks_to_keepAlive_in; now intros ep ->|intros _].
    now apply talks_to_quiet.
Qed.

Lemma talks_to_lyrics_loop (fuel : nat) (generateId : value) (r0 : Response) :
  talks_to (fun ep => renews ep || is_lyrics ep) (lyrics_loop E fuel generateId r0).
Proof.
  revert r0. induction fuel as [|fuel IH]; intro r0; simpl;
    (apply talks_to_if; [|now apply talks_to_quiet]).
  - now apply talks_to_quiet.
  - apply talks_to_bind; [now apply talks_to_quiet|intros _].
    apply talks_to_bind; [now apply talks_to_send|intro r]. apply IH.
Qed.

(** X10: no method ever drops or rewrites an exchange of the log, and
    each public method contacts its own endpoints only: [keepAlive] the
    renewal endpoint; [get] renewal and feed; [generate] and
    [custom_generate] renewal, generation and feed; [generateLyrics]
    renewal and the two lyrics endpoints; [get_credits] renewal and
    billing; [init] identity and renewal.  The identity endpoint is
    contacted by [init] alone. *)
Theorem methods_contact_their_endpoints_only :
  (forall isWait, talks_to renews (keepAlive E isWait)) /\
  (forall songIds, talks_to (fun ep => renews ep || is_feed ep) (get E songIds)) /\
  (forall fuel text mi wa,
     talks_to (fun ep => renews ep || is_generate ep || is_feed ep)
       (generate E fuel text mi wa)) /\
  (forall fuel text genre name mi wa,
     talks_to (fun ep => renews ep || is_generate ep || is_feed ep)
       (custom_generate E fuel text genre name mi wa)) /\
  (forall fuel text,
     talks_to (fun ep => renews ep || is_lyrics ep) (generateLyrics E fuel text)) /\
  talks_to (fun ep => renews ep || is_billing ep) (get_credits E) /\
  talks_to (fun ep => is_identity ep || renews ep) (init E).
Proof.
  split; [|split; [|split; [|split; [|split; [|split]]]]].
  - apply talks_to_keepAlive.
  - apply talks_to_get.
  - intros. unfold generate.
    apply talks_to_bind; [apply talks_to_keepAlive_in; now intros ep ->|intros _].
    apply talks_to_generateSongs.
  - intros. apply talks_to_generateSongs.
  - intros. unfold generateLyrics.
    apply talks_to_bind; [apply talks_to_keepAlive_in; now intros ep ->|intros _].
    apply talks_to_bind; [now apply talks_to_send|intro r].
    apply talks_to_bind; [now apply talks_to_quiet|intro generateId].
    apply talks_to_bind; [now apply talks_to_send|intro r0].
    apply talks_to_lyrics_loop.
  - unfold get_credits.
    apply talks_to_bind; [apply talks_to_keepAlive_in; now intros ep ->|intros _].
    apply talks_to_bind; [now apply talks_to_send|intro r].
    repeat (apply talks_to_bind; [now apply talks_to_quiet|intro]).
    now apply talks_to_quiet.
  - unfold init, getAuthToken.
    apply talks_to_bind;
      [|intros _; apply talks_to_keepAlive_in; intros ep ->; apply orb_true_r].
    apply talks_to_bind; [now apply talks_to_send|intro r].
    apply talks_to_if; [now apply talks_to_quiet|].
    repeat (apply talks_to_bind; [now apply talks_to_quiet|intro]).
    now apply talks_to_quiet.
Qed.

End Footprint.

(** ** Submissions and status queries are rationed *)

Lemma submissions_app (l1 l2 : list Event) :
  submissions (l1 ++ l2) = (submissions l1 + submissions l2)%nat.
Proof. unfold submissions. now rewrite filter_app, length_app. Qed.

Lemma feed_queries_app (l1 l2 : list Event) :
  feed_queries (l1 ++ l2) = (feed_queries l1 + feed_queries l2)%nat.
Proof. unfold feed_queries. now rewrite filter_app, length_app. Qed.

Lemma filter_none {A} (f g : A -> bool) (l : list A) :
  (forall x, g x = true -> f x = false) ->
  forallb g l = true -> filter f l = [].
Proof.
  intros Hfg. induction l as [|x l IH]; simpl; [reflexivity|].
  intro H. apply andb_true_iff in H as [Hx Hl]. rewrite (Hfg x Hx). now apply IH.
Qed.

Lemma talks_to_no_submission {A} (allowed : Endpoint -> bool) (m : M A) :
  (forall ep, allowed ep = true -> is_generate ep = false) ->
  talks_to allowed m -> submits_at_most 0 m.
Proof.
  intros Hno Hm w. destruct (Hm w) as (sent & Hlog & Hall).
  rewrite Hlog, submissions_app. unfold submissions at 1.
  rewrite (filter_none is_submission _ sent (fun e He => Hno _ He) Hall). simpl. lia.
Qed.

Lemma talks_to_no_feed_query {A} (allowed : Endpoint -> bool) (m : M A) (w : World) :
  (forall ep, allowed ep = true -> is_feed ep = false) ->
  talks_to allowed m -> feed_queries (log (snd (m w))) = feed_queries (log w).
Proof.
  intros Hno Hm. destruct (Hm w) as (sent & Hlog & Hall).
  rewrite Hlog, feed_queries_app. unfold feed_queries at 1.
  now rewrite (filter_none _ _ sent (fun e He => Hno _ He) Hall).
Qed.

Lemma submits_bind {A B} (n1 n2 : nat) (m : M A) (k : A -> M B) :
  submits_at_most n1 m -> (forall a, submits_at_most n2 (k a)) ->
  submits_at_most (n1 + n2) (bind m k).
Proof.
  intros Hm Hk w. specialize (Hm w). unfold bind.
  destruct (m w) as [[a|e|] w1]; simpl in Hm |- *; try lia.
  specialize (Hk a w1). lia.
Qed.

Lemma renews_not_generate (ep : Endpoint) : renews ep = true -> is_generate ep = false.
Proof. now destruct ep. Qed.

Lemma renews_or_feed_not_generate (ep : Endpoint) :
  renews ep || is_feed ep = true -> is_generate ep = false.
Proof. now destruct ep. Qed.

Section Rationing.

Variable E : Env.

Lemma submits_quiet {A} (m : M A) :
  (forall w, log (snd (m w)) = log w) -> submits_at_most 0 m.
Proof.
  intro H. apply (talks_to_no_submission renews); [apply renews_not_generate|].
  now apply talks_to_quiet.
Qed.

Lemma submits_keepAlive (isWait : bool) : submits_at_most 0 (keepAlive E isWait).
Proof.
  apply (talks_to_no_submission renews);
    [apply renews_not_generate|apply talks_to_keepAlive].
Qed.

Lemma submits_generateSongs (fuel : nat) (text : jsstring) (isCustom : bool)
    (genre name : option jsstring) (make_instrumental : option bool) (wait_audio : bool) :
  submits_at_most 1
    (generateSongs E fuel text isCustom genre name make_instrumental wait_audio).
Proof.
  unfold generateSongs.
  apply (submits_bind 0 1); [apply submits_keepAlive|intros _].
  apply (submits_bind 1 0).
  - intro w. rewrite send_eq. simpl. unfold submissions. simpl. lia.
  - intro r. destruct (negb (http_status r =? 200)); [now apply submits_quiet|].
    apply (submits_bind 0 0); [now apply submits_quiet|intro clips].
    apply (submits_bind 0 0); [now apply submits_quiet|intro songIds].
    destruct wait_audio.
    + apply (talks_to_no_submission (fun ep => renews ep || is_feed ep));
        [apply renews_or_feed_not_generate|apply talks_to_wait_for_audio].
    + apply (submits_bind 0 0); [apply submits_keepAlive|intros _].
      now apply submits_quiet.
Qed.

(** X11: a generation call submits its job at most once: however
    [generate] or [custom_generate] ends, waiting or not and for any
    length of polling, the log shows at most one more submission than
    before. *)
Theorem generation_submits_at_most_once :
  (forall fuel text mi wa w,
     (submissions (log (snd (generate E fuel text mi wa w)))
      <= S (submissions (log w)))%nat) /\
  (forall fuel text genre name mi wa w,
     (submissions (log (snd (custom_generate E fuel text genre name mi wa w)))
      <= S (submissions (log w)))%nat).
Proof.
  split; intros.
  - pose proof (submits_bind 0 1 (keepAlive E false)
                  (fun _ => generateSongs E fuel text false None None (Some mi) wa)
                  (submits_keepAlive false)
                  (fun _ => submits_generateSongs _ _ _ _ _ _ _) w) as H.
    unfold generate. simpl in H. lia.
  - pose proof (submits_generateSongs fuel text true (Some genre) (Some name)
                  (Some mi) wa w) as H.
    unfold custom_generate. lia.
Qed.

Lemma keepAlive_keeps_feed_queries (isWait : bool) (w : World) :
  feed_queries (log (snd (keepAlive E isWait w))) = feed_queries (log w).
Proof.
  apply (talks_to_no_feed_query renews); [now destruct ep|apply talks_to_keepAlive].
Qed.

(** A status query shows in the log once, also when it fails. *)
Lemma get_feed_queries (songIds : option (list value)) (w : World) :
  (feed_queries (log (snd (get E songIds w))) <= feed_queries (log w) + 1)%nat.
Proof.
  pose proof (keepAlive_keeps_feed_queries false w) as HK.
  unfold get, bind at 1.
  destruct (keepAlive E false w) as [[u|e|] w1]; simpl in HK |- *; try lia.
  unfold bind. rewrite send_eq.
  destruct (next_reply E w1 (Feed songIds)); simpl; unfold feed_queries in *;
    simpl; lia.
Qed.

Lemma get_Ok_feed_queries (songIds : option (list value)) (w w' : World)
    (records : list AudioInfo) :
  get E songIds w = (Ok records, w') ->
  feed_queries (log w') = S (feed_queries (log w)) /\ now w <= now w'.
Proof.
  intro H. apply get_Ok in H as (w1 & r & HK & _ & _ & ->).
  pose proof (keepAlive_keeps_feed_queries false w) as HQ. rewrite HK in HQ.
  apply keepAlive_Ok in HK as (r0 & _ & _ & _ & _ & _ & _ & _ & HN).
  simpl in HQ. split.
  - unfold feed_queries in *. simpl. now rewrite HQ.
  - simpl. lia.
Qed.

(** Every status query but the last is followed by at least four
    seconds of pause. *)
Lemma poll_feed_queries (fuel : nat) (startTime : Z) (songIds : list value) :
  forall (lastResponse : list AudioInfo) (w : World),
    exists q : nat,
      feed_queries (log (snd (poll E fuel startTime songIds lastResponse w)))
      = (feed_queries (log w) + q)%nat /\
      4000 * Z.of_nat q <= Z.max 0 (103999 - (now w - startTime)).
Proof.
  induction fuel as [|fuel IH]; intros lastResponse w; rewrite poll_unfold;
    destruct (now w - startTime <? 100000) eqn:Hc;
    try (exists 0%nat; cbn [fst snd]; split; lia).
  apply Z.ltb_lt in Hc. unfold bind at 1.
  pose proof (get_feed_queries (Some songIds) w) as HG.
  destruct (get E (Some songIds) w) as [[records|e|] w1] eqn:Hget; simpl in HG.
  - apply get_Ok_feed_queries in Hget as [HQ HN].
    destruct (forallb terminal records).
    + exists 1%nat. unfold ret. cbn [fst snd]. split; lia.
    + unfold bind at 1. rewrite sleep_Some.
      change (1000 * Z.min 3 6) with 3000. change (1000 * Z.max 3 6) with 6000.
      pose proof (clamp_bounds 3000 6000 (jitter E (pauses w1)) ltac:(lia)) as HC.
      match goal with |- context [bind (keepAlive E true) _ ?w2] =>
        set (paused := w2);
        pose proof (keepAlive_keeps_feed_queries true paused) as HK;
        unfold bind at 1;
        destruct (keepAlive E true paused) as [[u|e|] w3] eqn:Hkeep; simpl in HK
      end.
      * apply keepAlive_Ok in Hkeep as (r0 & _ & _ & _ & _ & _ & _ & _ & HN3).
        pose proof (clamp_bounds 1000 2000 (jitter E (pauses paused)) ltac:(lia)) as HC2.
        destruct (IH records w3) as (q & Hq & Hb).
        exists (S q). rewrite Hq, HK. subst paused.
        cbn [fst snd now log pauses] in HN3, Hb, HC2 |- *. split; lia.
      * exists 1%nat. cbn [fst snd]. rewrite HK. subst paused.
        cbn [fst snd now log pauses]. split; lia.
      * exists 1%nat. cbn [fst snd]. rewrite HK. subst paused.
        cbn [fst snd now log pauses]. split; lia.
  - exists (feed_queries (log w1) - feed_queries (log w))%nat. cbn [fst snd].
    pose proof (talks_to_get E (Some songIds) w) as (sent & Hlog & _).
    rewrite Hget in Hlog. cbn [fst snd] in Hlog.
    assert (feed_queries (log w) <= feed_queries (log w1))%nat
      by (rewrite Hlog, feed_queries_app; lia).
    split; lia.
  - exists (feed_queries (log w1) - feed_queries (log w))%nat. cbn [fst snd].
    pose proof (talks_to_get E (Some songIds) w) as (sent & Hlog & _).
    rewrite Hget in Hlog. cbn [fst snd] in Hlog.
    assert (feed_queries (log w) <= feed_queries (log w1))%nat
      by (rewrite Hlog, feed_queries_app; lia).
    split; lia.
Qed.

(** X12: one wait for the audio makes at most 24 status queries, however
    it ends and whatever the service answers. *)
Theorem wait_for_audio_makes_at_most_24_queries (fuel : nat) (songIds : list value)
    (w : World) :
  (feed_queries (log (snd (wait_for_audio E fuel songIds w)))
   <= feed_queries (log w) + 24)%nat.
Proof.
  unfold wait_for_audio. unfold bind at 1. unfold date_now at 1.
  unfold bind at 1. rewrite sleep_Some.
  change (1000 * Z.min 5 5) with 5000. change (1000 * Z.max 5 5) with 5000.
  pose proof (clamp_bounds 5000 5000 (jitter E (pauses w)) ltac:(lia)) as HC.
  match goal with |- context [poll E fuel (now w) songIds [] ?w1] =>
    destruct (poll_feed_queries fuel (now w) songIds [] w1) as (q & Hq & Hb) end.
  rewrite Hq. cbn [fst snd now log pauses] in Hb |- *. lia.
Qed.

(** A list that is not all terminal is returned only at the time limit. *)
Lemma poll_partial (fuel : nat) (startTime : Z) (songIds : list value) :
  forall (lastResponse records : list AudioInfo) (w w' : World),
    forallb terminal lastResponse = false \/ now w - startTime < 100000 ->
    poll E fuel startTime songIds lastResponse w = (Ok records, w') ->
    forallb terminal records = true \/
    (forallb terminal records = false /\ 100000 <= now w' - startTime).
Proof.
  induction fuel as [|fuel IH]; intros lastResponse records w w' Hpre H;
    rewrite poll_unfold in H;
    destruct (now w - startTime <? 100000) eqn:Hc; try discriminate;
    try (injection H as <- <-; apply Z.ltb_ge in Hc; right;
         destruct Hpre as [Hpre|Hpre]; [now split|lia]).
  apply bind_inv in H as [(records1 & w1 & HG & H)|[(e & _ & He)|[_ He]]];
    try discriminate.
  destruct (forallb terminal records1) eqn:Ht.
  - injection H as <- <-. now left.
  - apply bind_inv in H as [(u & w2 & HS & H)|[(e & _ & He)|[_ He]]]; try discriminate.
    apply bind_inv in H as [(u' & w3 & HK & H)|[(e & _ & He)|[_ He]]]; try discriminate.
    apply (IH records1 records w3 w'); [now left|exact H].
Qed.

(** X13: what a wait returns is either a list in which every job is
    "complete" or "streaming", or, at least 100000 ms after the wait
    began, a non-empty list with a job that is neither: partial results
    come back at the time limit only, and never as an empty list. *)
Theorem wait_for_audio_partial_only_at_limit (fuel : nat) (songIds : list value)
    (w w' : World) (records : list AudioInfo) :
  wait_for_audio E fuel songIds w = (Ok records, w') ->
  forallb terminal records = true \/
  (forallb terminal records = false /\ records <> [] /\ 100000 <= now w' - now w).
Proof.
  unfold wait_for_audio. unfold bind at 1. unfold date_now at 1.
  unfold bind at 1. rewrite sleep_Some.
  change (1000 * Z.min 5 5) with 5000. change (1000 * Z.max 5 5) with 5000.
  pose proof (clamp_bounds 5000 5000 (jitter E (pauses w)) ltac:(lia)) as HC.
  intro H. apply poll_partial in H as [H|[H1 H2]].
  - now left.
  - right. split; [exact H1|split; [|exact H2]].
    intros ->. discriminate.
  - right. cbn [now]. lia.
Qed.

End Rationing.

(** ** Lyrics that do get written *)

Section LyricsDone.

Variable E : Env.



(** X16: a generation that returns without waiting has made exactly the
    requests renewal, submission, renewal, in this order, and has paused
    once; [generate] makes one more renewal before them, since it renews
    the token itself and then again inside [generateSongs]. *)
Theorem immediate_generation_trace :
  (forall fuel text isCustom genre name mi w w' records,
     generateSongs E fuel text isCustom genre name mi false w = (Ok records, w') ->
     exists renewal1 submission renewal2,
       log w' = renewal2 :: submission :: renewal1 :: log w /\
       is_renewal renewal1 = true /\ is_submission submission = true /\
       is_renewal renewal2 = true /\
       pauses w' = S (pauses w)) /\
  (forall fuel text mi w w' records,
     generate E fuel text mi false w = (Ok records, w') ->
     exists renewal0 renewal1 submission renewal2,
       log w' = renewal2 :: submission :: renewal1 :: renewal0 :: log w /\
       is_renewal renewal0 = true /\ is_renewal renewal1 = true /\
       is_submission submission = true /\ is_renewal renewal2 = true /\
       pauses w' = S (pauses w)).
Proof.
  assert (Hsongs : forall fuel text isCustom genre name mi w w' records,
     generateSongs E fuel text isCustom genre name mi false w = (Ok records, w') ->
     exists renewal1 submission renewal2,
       log w' = renewal2 :: submission :: renewal1 :: log w /\
       is_renewal renewal1 = true /\ is_submission submission = true /\
       is_renewal renewal2 = true /\
       pauses w' = S (pauses w)).
  { intros fuel text isCustom genre name mi w w' records H. unfold generateSongs in H.
    apply bind_inv in H as [(u & w1 & HK & H)|[(e & _ & He)|[_ He]]]; try discriminate.
    apply keepAlive_Ok in HK as (r1 & _ & _ & _ & _ & _ & HL1 & HP1 & _).
    apply bind_inv in H as [(r & w2 & HS & H)|[(e & _ & He)|[_ He]]]; try discriminate.
    rewrite send_eq in HS. injection HS as _ <-.
    destruct (negb (http_status r =? 200)); [discriminate|].
    apply bind_inv in H as [(clips & w3 & HC & H)|[(e & _ & He)|[_ He]]]; try discriminate.
    unfold lift in HC. injection HC as _ <-.
    apply bind_inv in H as [(ids & w3 & HI & H)|[(e & _ & He)|[_ He]]]; try discriminate.
    unfold lift in HI. injection HI as _ <-.
    apply bind_inv in H as [(u' & w3 & HK2 & H)|[(e & _ & He)|[_ He]]]; try discriminate.
    unfold lift in H. injection H as _ <-.
    apply keepAlive_Ok in HK2 as (r2 & _ & _ & _ & _ & _ & HL2 & HP2 & _).
    simpl in HL2, HP2. rewrite HL2, HP2, HL1, HP1. simpl.
    eexists _, _, _. repeat split. }
  split; [exact Hsongs|].
  intros fuel text mi w w' records H. unfold generate in H.
  apply bind_inv in H as [(u & w1 & HK & H)|[(e & _ & He)|[_ He]]]; try discriminate.
  apply keepAlive_Ok in HK as (r0 & _ & _ & _ & _ & _ & HL0 & HP0 & _).
  apply Hsongs in H as (renewal1 & submission & renewal2 & HL & H1 & H2 & H3 & HP).
  rewrite HL, HP, HL0, HP0. simpl. eexists _, _, _, _. repeat split; assumption.
Qed.

End LyricsDone.

Lemma wait_for_audio_partial_only_at_limit_witness :
  let w := initialised slow_service in
  let run := wait_for_audio slow_service 24 [VStr (lit "job-1")] w in
  let records := match fst run with Ok l => l | _ => [] end in
  List.map status records = [VStr (lit "queued")] /\
  (forallb terminal records = true \/
   (forallb terminal records = false /\ records <> [] /\ 100000 <= now (snd run) - now w)).
Proof.
  intros w run records. split; [vm_compute; reflexivity|].
  apply (wait_for_audio_partial_only_at_limit slow_service 24 [VStr (lit "job-1")]
           w (snd run) records).
  vm_compute. reflexivity.
Defined.



Lemma immediate_generation_trace_witness :
  let w := initialised signed_in in
  let run := generate signed_in 0 (lit "a song") false false w in
  exists renewal0 renewal1 submission renewal2,
    log (snd run) = renewal2 :: submission :: renewal1 :: renewal0 :: log w /\
    is_renewal renewal0 = true /\ is_renewal renewal1 = true /\
    is_submission submission = true /\ is_renewal renewal2 = true /\
    pauses (snd run) = S (pauses w).
Proof.
  intros w run.
  apply (proj2 (immediate_generation_trace signed_in) 0%nat (lit "a song") false w
           (snd run) (match fst run with Ok l => l | _ => [] end)).
  vm_compute. reflexivity.
Defined.
